(** * Speaker attribution pipeline of the meeting transcriber

    A shallow embedding of the diarization / transcript fusion code
    ([modules/diarizer.py]), the timestamp formatter ([modules/utils.py])
    and the speaker-name resolution chain ([modules/platform_integrations.py]
    and step 4 of [process_meeting_file] in [app.py]).
    The further properties at the end of the file also need the choice of
    the diarizer ([diarize_audio_file], [diarize_with_pyannote]), the table
    [speaker_mappings] of [modules/utils.py] and the loop of
    [process_meeting_file] that puts the names into the transcript.

    Conventions of the embedding.
    - A Python number (float or int) holding a time or a probability is an
      exact rational [Q].  Every finite float is a rational, comparisons,
      [min] and [max] are exact on floats, and so are [//] and [%] on the
      value ranges met here; the rounding of float [-] and [*] is not
      modelled.
    - A Python dict with a fixed set of keys is a record; a key that may be
      missing (read through [.get]) is an [option] field.
    - A label-to-name dict is a [gmap string string].
    - Loops over a list that thread local variables are [fold_left]s whose
      accumulator holds exactly those variables.
    - The lists handed to the functions hold values.  The one function that
      assigns into its argument, [refine_speaker_boundaries], is embedded a
      second time on a store of objects, and the two embeddings are shown to
      agree when the list holds different dicts with different word lists,
      which is what [merge_transcript_with_diarization] builds.
    - What lies outside the program (optional imports, the audio file, the
      clusterer, the participant sources, the form) is a parameter or a
      record of answers; a call to the clusterer and a consultation of a
      participant source are recorded in a trace. *)

From Stdlib Require Import ZArith QArith Qminmax Qround Lia Lqa List Ascii String.
From Stdlib Require Import DecimalString DecimalN DecimalPos.
From stdpp Require Import base list strings gmap.

Local Open Scope string_scope.
Local Open Scope list_scope.

(** ** Data model *)

(** One entry of the [words] list of a transcript segment. *)
Record Word := {
  word : string;
  word_start : Q;
  word_end : Q;
  probability : Q
}.

(** A segment of [transcript_data['segments']].  [words] and
    [no_speech_prob] are read with [.get], so they may be absent. *)
Record TranscriptSegment := {
  ts_start : Q;
  ts_end : Q;
  ts_text : string;
  ts_words : option (list Word);
  ts_no_speech_prob : option Q
}.

(** An element of [diarization_data]. *)
Record DiarizationSegment := {
  d_start : Q;
  d_end : Q;
  d_speaker : string;
  d_duration : Q
}.

(** The dict appended by [merge_transcript_with_diarization]; [m_start] and
    [m_end] are its ['start'] and ['end'] keys (formatted timestamps). *)
Record MergedSegment := {
  m_start : string;
  m_end : string;
  start_seconds : Q;
  end_seconds : Q;
  speaker : string;
  text : string;
  words : list Word;
  confidence : Q
}.

(** ** Python numerics on rationals *)

(** [a < b] as a boolean. *)
Definition Qltb (a b : Q) : bool :=
  match (a ?= b)%Q with Lt => true | _ => false end.

(** [a // b] on floats: the floor of the quotient, still a float. *)
Definition floordiv (a b : Q) : Q := inject_Z (Qfloor (a / b)).

(** [a % b] for a positive [b]: the remainder that goes with [//]. *)
Definition pymod (a b : Q) : Q := (a - b * floordiv a b)%Q.

(** [int(x)]: truncation toward zero. *)
Definition int_of_float (x : Q) : Z := Z.quot (Qnum x) (Zpos (Qden x)).

(** ** [modules/utils.py]: [format_timestamp_ms] *)

(** The decimal digits of a natural number, as [str(n)] writes them. *)
Definition decimal_digits (n : N) : string :=
  NilZero.string_of_uint (N.to_uint n).

(** A string of [n] zero characters. *)
Fixpoint zeros (n : nat) : string :=
  match n with
  | O => ""
  | S k => String "0"%char (zeros k)
  end.

(** Left padding with zeros up to a minimal width. *)
Definition zfill (width : nat) (s : string) : string :=
  zeros (width - String.length s) +:+ s.

(** The format specification [0<width>d] of an f-string: sign-aware zero
    padding to a MINIMAL width; a longer number is written in full. *)
Definition format_0d (width : nat) (z : Z) : string :=
  if (z <? 0)%Z
  then "-" +:+ zfill (width - 1) (decimal_digits (Z.abs_N z))
  else zfill width (decimal_digits (Z.to_N z)).

Definition format_timestamp_ms (seconds : Q) : string :=
  let hours := int_of_float (floordiv seconds 3600) in
  let minutes := int_of_float (floordiv (pymod seconds 3600) 60) in
  let secs := int_of_float (pymod seconds 60) in
  let milliseconds := int_of_float (pymod seconds 1 * 1000) in
  format_0d 2 hours +:+ ":" +:+ format_0d 2 minutes +:+ ":" +:+
  format_0d 2 secs +:+ "." +:+ format_0d 3 milliseconds.

(** ** [modules/diarizer.py]: fusion *)

(** The three lines under "Calculate overlap" in [find_speaker_at_time].
    Python's [max(a, b)] keeps [a] unless [b > a] and [min(a, b)] keeps [a]
    unless [b < a]; [Qmax] and [Qmin] choose the same way. *)
Definition overlap (start_time end_time : Q) (segment : DiarizationSegment) : Q :=
  let overlap_start := Qmax start_time (d_start segment) in
  let overlap_end := Qmin end_time (d_end segment) in
  Qmax 0 (overlap_end - overlap_start).

(** One iteration of the loop of [find_speaker_at_time]; the state is
    [(max_overlap, best_speaker)]. *)
Definition find_speaker_step (start_time end_time : Q)
    (st : Q * string) (segment : DiarizationSegment) : Q * string :=
  let '(max_overlap, best_speaker) := st in
  let overlap := overlap start_time end_time segment in
  if Qltb max_overlap overlap
  then (overlap, d_speaker segment)
  else (max_overlap, best_speaker).

Definition find_speaker_at_time (start_time end_time : Q)
    (diarization_data : list DiarizationSegment) : string :=
  match diarization_data with
  | [] => "SPEAKER_0"
  | first :: _ =>
      snd (fold_left (find_speaker_step start_time end_time)
             diarization_data (0%Q, d_speaker first))
  end.

(** The dict built in the body of the loop of
    [merge_transcript_with_diarization]. *)
Definition merged_of (diarization_data : list DiarizationSegment)
    (segment : TranscriptSegment) : MergedSegment :=
  let speaker :=
    find_speaker_at_time (ts_start segment) (ts_end segment) diarization_data in
  {| m_start := format_timestamp_ms (ts_start segment);
     m_end := format_timestamp_ms (ts_end segment);
     start_seconds := ts_start segment;
     end_seconds := ts_end segment;
     speaker := speaker;
     text := ts_text segment;
     words := default [] (ts_words segment);
     confidence := (1 - default 0 (ts_no_speech_prob segment))%Q |}.

(** [transcript_data] is represented by its ['segments'] list, the only key
    the function reads. *)
Definition merge_transcript_with_diarization
    (transcript_segments : list TranscriptSegment)
    (diarization_data : list DiarizationSegment) : list MergedSegment :=
  fold_left (fun merged segment => merged ++ [merged_of diarization_data segment])
    transcript_segments [].

(** ** [modules/diarizer.py]: boundary refinement *)

(** The condition of the [if] in [refine_speaker_boundaries]. *)
Definition should_merge (min_segment_duration : Q)
    (last_segment segment : MergedSegment) : bool :=
  bool_decide (speaker segment = speaker last_segment) &&
  Qltb (start_seconds segment - end_seconds last_segment) min_segment_duration.

(** The four assignments of the merge branch, on [last_segment]. *)
Definition merge_into (last_segment segment : MergedSegment) : MergedSegment :=
  {| m_start := m_start last_segment;
     m_end := m_end segment;
     start_seconds := start_seconds last_segment;
     end_seconds := end_seconds segment;
     speaker := speaker last_segment;
     text := text last_segment +:+ " " +:+ text segment;
     words := words last_segment ++ words segment;
     confidence := confidence last_segment |}.

(** One iteration of the loop.  [refined] is never empty inside the loop (it
    starts with one element and never shrinks), so it is held as the pair of
    [refined[:-1]] and [refined[-1]]. *)
Definition refine_step (min_segment_duration : Q)
    (refined : list MergedSegment * MergedSegment) (segment : MergedSegment)
    : list MergedSegment * MergedSegment :=
  let '(front, last_segment) := refined in
  if should_merge min_segment_duration last_segment segment
  then (front, merge_into last_segment segment)
  else (front ++ [last_segment], segment).

Definition refine_speaker_boundaries (merged_segments : list MergedSegment)
    (min_segment_duration : Q) : list MergedSegment :=
  match merged_segments with
  | [] => []
  | first :: rest =>
      let '(front, last_segment) :=
        fold_left (refine_step min_segment_duration) rest ([], first) in
      front ++ [last_segment]
  end.

(** The pass as the specification words it: a running [current] segment,
    closed and emitted when the next segment does not merge into it, and
    flushed at the end. *)
Fixpoint refine_from (min_gap : Q) (current : MergedSegment)
    (rest : list MergedSegment) : list MergedSegment :=
  match rest with
  | [] => [current]
  | next :: rest' =>
      if should_merge min_gap current next
      then refine_from min_gap (merge_into current next) rest'
      else current :: refine_from min_gap next rest'
  end.

Definition refine_spec (X : list MergedSegment) (min_gap : Q) : list MergedSegment :=
  match X with
  | [] => []
  | first :: rest => refine_from min_gap first rest
  end.

(** All the text of a sequence, its segments' texts joined by single spaces. *)
Fixpoint join_texts (l : list string) : string :=
  match l with
  | [] => ""
  | [t] => t
  | t :: l' => t +:+ " " +:+ join_texts l'
  end.

(** ** [modules/diarizer.py]: boundary refinement, on the interpreter's objects

    [refine_speaker_boundaries] assigns to the keys of [last_segment], a
    dict of its argument, and extends its word list in place.  This second
    embedding keeps the dicts and the word lists in a store and passes
    references around, as the interpreter does; it is related to the
    embedding on values below. *)

(** A dict of the merged list as the interpreter holds it: an object at an
    address, whose ['words'] is the address of a list object. *)
Record SegmentObject := {
  o_start : string;
  o_end : string;
  o_start_seconds : Q;
  o_end_seconds : Q;
  o_speaker : string;
  o_text : string;
  o_words : nat;
  o_confidence : Q
}.

Record Store := {
  dicts : gmap nat SegmentObject;
  lists : gmap nat (list Word)
}.

(** The value of the dict at [ref], its word list read through. *)
Definition view (σ : Store) (ref : nat) : option MergedSegment :=
  d ← dicts σ !! ref;
  w ← lists σ !! o_words d;
  Some {| m_start := o_start d; m_end := o_end d;
          start_seconds := o_start_seconds d; end_seconds := o_end_seconds d;
          speaker := o_speaker d; text := o_text d; words := w;
          confidence := o_confidence d |}.

(** The four statements of the merge branch: three item assignments on
    the dict [last_segment] and one [extend] on its word list. *)
Definition merge_in_place (σ : Store) (last_ref seg_ref : nat) : option Store :=
  last_segment ← dicts σ !! last_ref;
  segment ← dicts σ !! seg_ref;
  last_words ← lists σ !! o_words last_segment;
  segment_words ← lists σ !! o_words segment;
  Some {| dicts :=
            <[last_ref :=
                {| o_start := o_start last_segment;
                   o_end := o_end segment;
                   o_start_seconds := o_start_seconds last_segment;
                   o_end_seconds := o_end_seconds segment;
                   o_speaker := o_speaker last_segment;
                   o_text := o_text last_segment +:+ " " +:+ o_text segment;
                   o_words := o_words last_segment;
                   o_confidence := o_confidence last_segment |}]> (dicts σ);
          lists :=
            <[o_words last_segment := last_words ++ segment_words]> (lists σ) |}.

(** One iteration on references; [None] stands for a dangling reference. *)
Definition refine_store_step (min_segment_duration : Q)
    (st : option (list nat * nat * Store)) (seg_ref : nat)
    : option (list nat * nat * Store) :=
  '(front, last_ref, σ) ← st;
  last_segment ← view σ last_ref;
  segment ← view σ seg_ref;
  if should_merge min_segment_duration last_segment segment
  then σ' ← merge_in_place σ last_ref seg_ref; Some (front, last_ref, σ')
  else Some (front ++ [last_ref], seg_ref, σ).

Definition refine_speaker_boundaries_store (merged_segments : list nat)
    (min_segment_duration : Q) (σ : Store) : option (list nat * Store) :=
  match merged_segments with
  | [] => Some ([], σ)
  | first :: rest =>
      '(front, last_ref, σ') ←
        fold_left (refine_store_step min_segment_duration) rest
          (Some ([], first, σ));
      Some (front ++ [last_ref], σ')
  end.

(** ** [modules/diarizer.py]: the fallback diarizer *)

(** What a call does: it returns a value or an exception leaves it. *)
Inductive Outcome (A : Type) : Type :=
  | Returned (a : A)
  | Raised.
Arguments Returned {A} a.
Arguments Raised {A}.

(** Which of the optional imports of [diarize_fallback] succeed. *)
Record Capabilities := {
  pydub_available : bool;
  librosa_sklearn_available : bool
}.

(** What the function can observe of the file at [audio_path]:
    [nonsilent_ranges] is the answer of [detect_nonsilent] (milliseconds)
    and [num_samples] is [len(y)] after [librosa.load(audio_path, sr=16000)].
    [file_duration], in seconds, is a property of the file that the code
    never reads. *)
Record AudioFile := {
  file_duration : Q;
  decodable : bool;
  nonsilent_ranges : list (Z * Z);
  num_samples : Z
}.

(** A dict of the list [segments]: ['speaker'] is set after clustering. *)
Record FallbackSegment := {
  f_start : Q;
  f_end : Q;
  f_duration : Q;
  f_speaker : option string
}.

Definition with_speaker (label : string) (s : FallbackSegment) : FallbackSegment :=
  {| f_start := f_start s; f_end := f_end s; f_duration := f_duration s;
     f_speaker := Some label |}.

(** [str(z)] for an integer. *)
Definition str_int (z : Z) : string :=
  if (z <? 0)%Z then "-" +:+ decimal_digits (Z.abs_N z)
  else decimal_digits (Z.to_N z).

(** The literal returned when an import fails. *)
Definition last_resort_segment : FallbackSegment :=
  {| f_start := 0; f_end := 100; f_duration := 100;
     f_speaker := Some "SPEAKER_0" |}.

(** The sampling rate handed to and returned by [librosa.load]. *)
Definition sr : Z := 16000.

(** [len(y[a:b])] for a sequence of [n] elements. *)
Definition slice_index (n i : Z) : Z :=
  if (i <? 0)%Z then Z.max 0 (i + n) else Z.min i n.

Definition slice_len (n a b : Z) : Z :=
  Z.max 0 (slice_index n b - slice_index n a).

(** The cluster count: the two assignments to [num_speakers] before the
    clusterer is built. *)
Definition cluster_count (num_speakers : option Z) (n_segments : Z) : Z :=
  let num_speakers :=
    match num_speakers with
    | None => Z.min 5 (Z.max 2 (n_segments / 10))
    | Some k => k
    end in
  Z.min num_speakers n_segments.

Section Fallback.

(** The MFCC fingerprint of [y[start_sample:end_sample]] and the
    clusterer [AgglomerativeClustering(n_clusters).fit_predict] belong to
    librosa and scikit-learn: they are parameters.  The clusterer answers
    [None] when it raises. *)
Variable Feature : Type.
Variable extract_features : AudioFile -> Z -> Z -> Feature.
Variable fit_predict : Z -> list Feature -> option (list Z).

(** The body of the loop over [nonsilent_ranges]; the state is
    [(segments, features)]. *)
Definition extract_step (audio : AudioFile)
    (st : list FallbackSegment * list Feature) (range : Z * Z)
    : list FallbackSegment * list Feature :=
  let '(segments, features) := st in
  let '(start_ms, end_ms) := range in
  let start_sec := (inject_Z start_ms / 1000)%Q in
  let end_sec := (inject_Z end_ms / 1000)%Q in
  let start_sample := int_of_float (start_sec * inject_Z sr) in
  let end_sample := int_of_float (end_sec * inject_Z sr) in
  let len_segment_audio := slice_len (num_samples audio) start_sample end_sample in
  if Qltb (inject_Z sr * (3 # 10)) (inject_Z len_segment_audio)
  then (segments ++ [ {| f_start := start_sec; f_end := end_sec;
                         f_duration := (end_sec - start_sec)%Q;
                         f_speaker := None |} ],
        features ++ [extract_features audio start_sample end_sample])
  else (segments, features).

(** The intervals that survive the loop (those longer than 0.3 s), with
    their features. *)
Definition surviving_intervals (audio : AudioFile)
    : list FallbackSegment * list Feature :=
  fold_left (extract_step audio) (nonsilent_ranges audio) ([], []).

(** [for i, label in enumerate(labels): segments[i]['speaker'] = ...],
    from index [i] on; an index past the end raises [IndexError]. *)
Fixpoint assign_labels (i : nat) (labels : list Z)
    (segments : list FallbackSegment) : Outcome (list FallbackSegment) :=
  match labels with
  | [] => Returned segments
  | label :: labels' =>
      match segments !! i with
      | None => Raised
      | Some _ =>
          assign_labels (S i) labels'
            (alter (with_speaker ("SPEAKER_" +:+ str_int label)) i segments)
      end
  end.

(** The result pairs the outcome with the calls made to the clusterer,
    each with its [n_clusters] and the features it was given. *)
Definition diarize_fallback (caps : Capabilities) (audio : AudioFile)
    (num_speakers : option Z)
    : Outcome (list FallbackSegment) * list (Z * list Feature) :=
  if negb (pydub_available caps) then (Returned [last_resort_segment], [])
  else if negb (librosa_sklearn_available caps)
  then (Returned [last_resort_segment], [])
  else if negb (decodable audio) then (Raised, [])
  else
    match nonsilent_ranges audio with
    | [] => (Returned [], [])
    | _ =>
        let '(segments, features) := surviving_intervals audio in
        match features with
        | [] => (Returned [], [])
        | _ =>
            let num_speakers :=
              cluster_count num_speakers (Z.of_nat (length segments)) in
            if (1 <? Z.of_nat (length features))%Z
            then
              match fit_predict num_speakers features with
              | None => (Raised, [(num_speakers, features)])
              | Some labels =>
                  (assign_labels 0 labels segments, [(num_speakers, features)])
              end
            else
              match segments with
              | [] => (Raised, [])
              | s0 :: others =>
                  (Returned (with_speaker "SPEAKER_0" s0 :: others), [])
              end
        end
    end.

End Fallback.

Arguments extract_step {Feature} extract_features audio st range.
Arguments surviving_intervals {Feature} extract_features audio.
Arguments diarize_fallback {Feature} extract_features fit_predict caps audio num_speakers.

(** ** Speaker-name resolution:
       [modules/platform_integrations.py] and step 4 of [process_meeting_file] *)

(** The places a speaker mapping can come from, named as the code's
    comments and log messages name them. *)
Inductive Source :=
  | BotCapture
  | GoogleCalendar
  | ZoomAPI
  | TeamsAPI
  | ManualString
  | ManualUI.

Global Instance Source_eq_dec : EqDecision Source.
Proof. solve_decision. Defined.

(** What lies outside the program: the files, services and widgets that the
    lookups read.  Each lookup answers a list of names, or [None] where the
    Python function returns [None] (missing file or credential, failed
    request, exception caught). *)
Record NameSources := {
  use_bot_data : bool;
  bot_capture_file : option (list string);
  calendar_attendees : option (list string);
  zoom_participants : option (list string);
  teams_participants : option (list string);
  text_input : string -> string
}.

(** A computation that records, in order, the sources it consults. *)
Definition Traced (A : Type) : Type := A * list Source.

Definition tret {A} (a : A) : Traced A := (a, []).

Definition tbind {A B} (c : Traced A) (k : A -> Traced B) : Traced B :=
  let '(a, t1) := c in
  let '(b, t2) := k a in
  (b, t1 ++ t2).

Definition consult {A} (src : Source) (answer : A) : Traced A := (answer, [src]).

Notation "'call' x <- c ;; k" := (tbind c (fun x => k))
  (at level 10, x name, c at level 99, k at level 200).

(** [f"SPEAKER_{i}"] *)
Definition speaker_label (i : nat) : string :=
  "SPEAKER_" +:+ decimal_digits (N.of_nat i).

(** [for i, name in enumerate(names): mapping[f"SPEAKER_{i}"] = name] *)
Definition enumerate_mapping (names : list string) : gmap string string :=
  fold_left (fun mapping '(i, name) => <[speaker_label i := name]> mapping)
    (imap pair names) ∅.

(** The truth value of a mapping that may be [None]: [None] and the empty
    dict are false. *)
Definition truthy (mapping : option (gmap string string)) : bool :=
  match mapping with
  | Some m => bool_decide (m ≠ ∅)
  | None => false
  end.

(** [s.split(sep)] for a one-character separator. *)
Fixpoint split_go (sep : ascii) (cur s : string) : list string :=
  match s with
  | "" => [String.rev cur]
  | String c s' =>
      if Ascii.eqb c sep
      then String.rev cur :: split_go sep "" s'
      else split_go sep (String c cur) s'
  end.

Definition split (sep : ascii) (s : string) : list string := split_go sep "" s.

(** [s.strip()], over the whitespace characters of the ASCII range. *)
Definition py_isspace (c : ascii) : bool :=
  let n := nat_of_ascii c in
  ((9 <=? n)%nat && (n <=? 13)%nat) || ((28 <=? n)%nat && (n <=? 32)%nat).

Fixpoint lstrip (s : string) : string :=
  match s with
  | "" => ""
  | String c s' => if py_isspace c then lstrip s' else s
  end.

Definition strip (s : string) : string :=
  String.rev (lstrip (String.rev (lstrip s))).

Definition check_bot_capture_data (env : NameSources)
    : option (gmap string string) :=
  enumerate_mapping <$> bot_capture_file env.

(** An event without attendees answers [None]. *)
Definition get_google_calendar_participants (env : NameSources)
    : option (gmap string string) :=
  match calendar_attendees env with
  | Some (a :: attendees) => Some (enumerate_mapping (a :: attendees))
  | _ => None
  end.

Definition get_zoom_participants (env : NameSources)
    : option (gmap string string) :=
  enumerate_mapping <$> zoom_participants env.

Definition get_teams_participants (env : NameSources)
    : option (gmap string string) :=
  enumerate_mapping <$> teams_participants env.

Definition get_meeting_participants (env : NameSources)
    (default_participants : string) : Traced (gmap string string) :=
  call participants <- consult GoogleCalendar (get_google_calendar_participants env) ;;
  if truthy participants then tret (default ∅ participants) else
  call participants <- consult ZoomAPI (get_zoom_participants env) ;;
  if truthy participants then tret (default ∅ participants) else
  call participants <- consult TeamsAPI (get_teams_participants env) ;;
  if truthy participants then tret (default ∅ participants) else
  call default_participants <- consult ManualString default_participants ;;
  if bool_decide (default_participants ≠ "")
  then tret (enumerate_mapping (strip <$> split "," default_participants))
  else tret ∅.

(** The mapping typed into the form: one [st.text_input] per label of the
    merged transcript, kept when it is not empty.  (The labels are sorted
    for display only.) *)
Definition manual_mapping (env : NameSources)
    (unique_speaker_labels : list string) : gmap string string :=
  fold_left (fun mapping speaker_label =>
               let real_name := text_input env speaker_label in
               if bool_decide (real_name ≠ "")
               then <[speaker_label := real_name]> mapping
               else mapping)
    unique_speaker_labels ∅.

(** Step 4 of [process_meeting_file], up to "Apply speaker names".  The
    answer is the final [speaker_mapping], or [None] when the function
    stops with "Please map all speakers before continuing". *)
Definition resolve_speaker_names (env : NameSources)
    (default_participants : string)
    (diarization_data : list DiarizationSegment)
    (merged_transcript : list MergedSegment)
    : Traced (option (gmap string string)) :=
  let unique_speakers :=
    size (list_to_set (d_speaker <$> diarization_data) : gset string) in
  call speaker_mapping <-
    (if use_bot_data env
     then consult BotCapture (check_bot_capture_data env)
     else tret (Some ∅)) ;;
  call speaker_mapping <-
    (if negb (truthy speaker_mapping)
     then call m <- get_meeting_participants env default_participants ;;
          tret (Some m)
     else tret speaker_mapping) ;;
  if negb (truthy speaker_mapping)
     || bool_decide (size (default ∅ speaker_mapping) < unique_speakers)%nat
  then
    let unique_speaker_labels :=
      elements (list_to_set (speaker <$> merged_transcript) : gset string) in
    call speaker_mapping <-
      consult ManualUI (manual_mapping env unique_speaker_labels) ;;
    if bool_decide (size speaker_mapping ≠ length unique_speaker_labels)
    then tret None
    else tret (Some speaker_mapping)
  else tret speaker_mapping.

(** ** [modules/diarizer.py]: the choice of the diarizer *)

(** What [diarize_audio_file] and [diarize_with_pyannote] read outside the
    program: whether [pyannote.audio] was imported, the environment variable
    [HF_TOKEN], and what loading and running the pipeline on the file gives,
    the tracks [(turn.start, turn.end, speaker)] in order, or [None] when
    anything in the [try] block raises. *)
Record Backend := {
  PYANNOTE_AVAILABLE : bool;
  HF_TOKEN : option string;
  run_pipeline : AudioFile -> option Z -> option (list (Q * Q * string))
}.

(** The truth value of [os.getenv(...)]: unset and empty are false. *)
Definition env_set (value : option string) : bool :=
  match value with
  | Some v => bool_decide (v <> "")
  | None => false
  end.

(** The dict appended for one track of [diarization.itertracks]. *)
Definition track_segment (track : Q * Q * string) : FallbackSegment :=
  let '(turn_start, turn_end, speaker) := track in
  {| f_start := turn_start; f_end := turn_end;
     f_duration := (turn_end - turn_start)%Q;
     f_speaker := Some ("SPEAKER_" +:+ speaker) |}.

Section Selector.

Variable Feature : Type.
Variable extract_features : AudioFile -> Z -> Z -> Feature.
Variable fit_predict : Z -> list Feature -> option (list Z).
Variable caps : Capabilities.
Variable backend : Backend.

(** Without [pyannote.audio] the name [Pipeline] is unbound, and the
    [NameError] is caught like any other exception of the [try] block. *)
Definition diarize_with_pyannote (audio : AudioFile) (num_speakers : option Z)
    : Outcome (list FallbackSegment) * list (Z * list Feature) :=
  if negb (env_set (HF_TOKEN backend))
  then diarize_fallback extract_features fit_predict caps audio num_speakers
  else
    match (if PYANNOTE_AVAILABLE backend
           then run_pipeline backend audio num_speakers else None) with
    | Some tracks =>
        (Returned (fold_left (fun segments track => segments ++ [track_segment track])
                     tracks []), [])
    | None => diarize_fallback extract_features fit_predict caps audio num_speakers
    end.

Definition diarize_audio_file (audio : AudioFile) (num_speakers : option Z)
    (method : string)
    : Outcome (list FallbackSegment) * list (Z * list Feature) :=
  let method :=
    if bool_decide (method = "auto")
    then if PYANNOTE_AVAILABLE backend && env_set (HF_TOKEN backend)
         then "pyannote" else "fallback"
    else method in
  if bool_decide (method = "pyannote")
  then diarize_with_pyannote audio num_speakers
  else diarize_fallback extract_features fit_predict caps audio num_speakers.

End Selector.

Arguments diarize_with_pyannote {Feature} extract_features fit_predict caps backend audio num_speakers.
Arguments diarize_audio_file {Feature} extract_features fit_predict caps backend audio num_speakers method.

(** ** [modules/utils.py]: the table [speaker_mappings] *)

(** The table has the primary key [(meeting_id, speaker_label)]: it holds at
    most one [real_name] per key.  [INSERT OR REPLACE] writes the row of a
    key, whether it was there or not. *)
Definition save_speaker_mapping (meeting_id speaker_label real_name : string)
    (table : gmap (string * string) string) : gmap (string * string) string :=
  <[(meeting_id, speaker_label) := real_name]> table.

(** [{row[0]: row[1] for row in c.fetchall()}] over the rows selected by
    [WHERE meeting_id=?]. *)
Definition get_speaker_mapping (meeting_id : string)
    (table : gmap (string * string) string) : gmap string string :=
  list_to_map
    (omap (fun row : string * string * string =>
             if decide (row.1.1 = meeting_id)
             then Some (row.1.2, row.2) else None)
          (map_to_list table)).

(** ** [app.py]: the names put into the transcript *)

(** The loop under "Apply speaker names to transcript". *)
Definition apply_speaker_names (speaker_mapping : gmap string string)
    (merged_transcript : list MergedSegment) : list MergedSegment :=
  (fun segment =>
     match speaker_mapping !! speaker segment with
     | Some name =>
         {| m_start := m_start segment; m_end := m_end segment;
            start_seconds := start_seconds segment;
            end_seconds := end_seconds segment;
            speaker := name; text := text segment; words := words segment;
            confidence := confidence segment |}
     | None => segment
     end) <$> merged_transcript.

(** ** Vocabulary of the properties *)

(** What the loop has established after the prefix [pre], from the initial
    state [(0, b0)]: [max_overlap] bounds every overlap seen, and
    [best_speaker] is still [b0] with [max_overlap] zero, or it belongs to
    the first segment of [pre] whose overlap is [max_overlap]. *)
Definition best_so_far (s e : Q) (b0 : string)
    (pre : list DiarizationSegment) (st : Q * string) : Prop :=
  (forall D, D ∈ pre -> (overlap s e D <= st.1)%Q) /\
  (((st.1 == 0)%Q /\ st.2 = b0) \/
   (exists i D, pre !! i = Some D /\ st.2 = d_speaker D /\
      (overlap s e D == st.1)%Q /\ (0 < st.1)%Q /\
      forall j D', (j < i)%nat -> pre !! j = Some D' ->
        (overlap s e D' < st.1)%Q)).

(** [[s, e]] lies within the time range of [D]. *)
Definition contains (D : DiarizationSegment) (s e : Q) : Prop :=
  (d_start D <= s)%Q /\ (e <= d_end D)%Q.

(** The diarization of the scenario: [A = [0,5] -> SPK0], [B = [5,10] -> SPK1]. *)
Definition seg_A : DiarizationSegment :=
  {| d_start := 0; d_end := 5; d_speaker := "SPK0"; d_duration := 5 |}.
Definition seg_B : DiarizationSegment :=
  {| d_start := 5; d_end := 10; d_speaker := "SPK1"; d_duration := 5 |}.

(** What a merged segment keeps of the transcript segment it comes from. *)
Definition fused_from (segment : TranscriptSegment) (m : MergedSegment) : Prop :=
  start_seconds m = ts_start segment /\
  end_seconds m = ts_end segment /\
  text m = ts_text segment /\
  confidence m =
    match ts_no_speech_prob segment with
    | Some no_speech_prob => (1 - no_speech_prob)%Q
    | None => 1%Q
    end.

(** No two neighbours of the sequence would merge. *)
Fixpoint settled (g : Q) (l : list MergedSegment) : Prop :=
  match l with
  | a :: (b :: _) as l' => should_merge g a b = false /\ settled g l'
  | _ => True
  end.

(** The address of the word list of the dict at [ref]. *)
Definition words_ref (σ : Store) (ref : nat) : option nat :=
  o_words <$> dicts σ !! ref.

(** The references are to different dicts with different word lists. *)
Definition separated (σ : Store) (refs : list nat) : Prop :=
  forall i j r1 r2, i <> j -> refs !! i = Some r1 -> refs !! j = Some r2 ->
    r1 <> r2 /\ words_ref σ r1 <> words_ref σ r2.

Definition views (σ : Store) (refs : list nat) (vs : list MergedSegment) : Prop :=
  Forall2 (fun r v => view σ r = Some v) refs vs.

(** A store of two dicts of one speaker, each with its own word list. *)
Definition two_objects : Store :=
  {| dicts :=
       {[ 0%nat := {| o_start := "00:00:00.000"; o_end := "00:00:01.000";
                      o_start_seconds := 0; o_end_seconds := 1;
                      o_speaker := "SPEAKER_0"; o_text := "good";
                      o_words := 10; o_confidence := 1 |};
          1%nat := {| o_start := "00:00:01.300"; o_end := "00:00:02.000";
                      o_start_seconds := 13 # 10; o_end_seconds := 2;
                      o_speaker := "SPEAKER_0"; o_text := "morning";
                      o_words := 11; o_confidence := 1 |} ]};
     lists := {[ 10%nat := []; 11%nat := [] ]} |}.

(** A merged segment without words, of full confidence. *)
Definition said (speaker : string) (start_seconds end_seconds : Q)
    (text : string) : MergedSegment :=
  {| m_start := format_timestamp_ms start_seconds;
     m_end := format_timestamp_ms end_seconds;
     start_seconds := start_seconds;
     end_seconds := end_seconds;
     speaker := speaker;
     text := text;
     words := [];
     confidence := 1 |}.

(** The character of a decimal digit. *)
Definition digit (d : Z) : ascii := ascii_of_nat (48 + Z.to_nat d).

Definition two_digits (n : Z) : string :=
  String (digit (n / 10)) (String (digit (n mod 10)) "").

Definition three_digits (n : Z) : string :=
  String (digit (n / 100))
    (String (digit (n / 10 mod 10)) (String (digit (n mod 10)) "")).

(** The form HH:MM:SS.mmm of a whole number of milliseconds, as the
    specification words it: two digits of hours, two of minutes, two of
    seconds and three of milliseconds. *)
Definition hh_mm_ss_mmm (total_ms : Z) : string :=
  two_digits (total_ms / 3600000) +:+ ":" +:+
  two_digits (total_ms / 60000 mod 60) +:+ ":" +:+
  two_digits (total_ms / 1000 mod 60) +:+ "." +:+
  three_digits (total_ms mod 1000).

Definition is_digit (c : ascii) : bool :=
  (48 <=? nat_of_ascii c)%nat && (nat_of_ascii c <=? 57)%nat.

(** Twelve characters: digits, with colons at 2 and 5 and a dot at 8. *)
Definition is_hh_mm_ss_mmm (s : string) : bool :=
  match s with
  | String h1 (String h2 (String c1 (String m1 (String m2 (String c2
      (String s1 (String s2 (String dot (String f1 (String f2 (String f3
        EmptyString))))))))))) =>
      is_digit h1 && is_digit h2 && Ascii.eqb c1 ":" &&
      is_digit m1 && is_digit m2 && Ascii.eqb c2 ":" &&
      is_digit s1 && is_digit s2 && Ascii.eqb dot "." &&
      is_digit f1 && is_digit f2 && is_digit f3
  | _ => false
  end.

(** [clamp(x, lo, hi)] as the specification uses it. *)
Definition clamp (x lo hi : Z) : Z :=
  if (x <? lo)%Z then lo else if (hi <? x)%Z then hi else x.

(** An environment with every import at hand, and one without pydub. *)
Definition all_capabilities : Capabilities :=
  {| pydub_available := true; librosa_sklearn_available := true |}.
Definition no_pydub : Capabilities :=
  {| pydub_available := false; librosa_sklearn_available := true |}.

(** One second of speech; fifty seconds of speech. *)
Definition one_second_audio : AudioFile :=
  {| file_duration := 1; decodable := true;
     nonsilent_ranges := [(0, 1000)%Z]; num_samples := 16000 |}.
Definition fifty_seconds_audio : AudioFile :=
  {| file_duration := 50; decodable := true;
     nonsilent_ranges := [(0, 50000)%Z]; num_samples := 800000 |}.

(** The chain of lookups as the specification words it: an ordered list of
    sources, each with its answer. *)
Definition manual_string_answer (default_participants : string)
    : option (gmap string string) :=
  if bool_decide (default_participants ≠ "")
  then Some (enumerate_mapping (strip <$> split "," default_participants))
  else None.

Definition source_chain (env : NameSources) (default_participants : string)
    : list (Source * option (gmap string string)) :=
  (if use_bot_data env then [(BotCapture, check_bot_capture_data env)] else []) ++
  [ (GoogleCalendar, get_google_calendar_participants env);
    (ZoomAPI, get_zoom_participants env);
    (TeamsAPI, get_teams_participants env);
    (ManualString, manual_string_answer default_participants) ].

(** First non-empty answer wins; the sources asked are those up to it. *)
Fixpoint first_success (chain : list (Source * option (gmap string string)))
    : Traced (gmap string string) :=
  match chain with
  | [] => (∅, [])
  | (src, answer) :: chain' =>
      if truthy answer then (default ∅ answer, [src])
      else let '(m, asked) := first_success chain' in (m, src :: asked)
  end.

Definition manual_completion (env : NameSources)
    (diarization_data : list DiarizationSegment)
    (merged_transcript : list MergedSegment)
    (found : Traced (gmap string string)) : Traced (option (gmap string string)) :=
  let unique_speakers :=
    size (list_to_set (d_speaker <$> diarization_data) : gset string) in
  let '(m, asked) := found in
  if bool_decide (m = ∅) || bool_decide (size m < unique_speakers)%nat
  then
    let labels :=
      elements (list_to_set (speaker <$> merged_transcript) : gset string) in
    let typed := manual_mapping env labels in
    (if bool_decide (size typed ≠ length labels) then None else Some typed,
     asked ++ [ManualUI])
  else (Some m, asked).

(** What is left of the chain when the capture is not asked or is empty. *)
Definition platform_chain (env : NameSources) (default_participants : string)
    : list (Source * option (gmap string string)) :=
  [ (GoogleCalendar, get_google_calendar_participants env);
    (ZoomAPI, get_zoom_participants env);
    (TeamsAPI, get_teams_participants env);
    (ManualString, manual_string_answer default_participants) ].

(** A capture of two names, a calendar of two attendees, two voices. *)
Definition two_captured : NameSources :=
  {| use_bot_data := true;
     bot_capture_file := Some ["Alice"; "Bob"];
     calendar_attendees := Some ["Carol"; "Dave"];
     zoom_participants := None;
     teams_participants := None;
     text_input := fun _ => "" |}.

(** A capture of one name only, for the same meeting; the operator types
    two names into the form. *)
Definition one_captured : NameSources :=
  {| use_bot_data := true;
     bot_capture_file := Some ["Alice"];
     calendar_attendees := Some ["Carol"; "Dave"];
     zoom_participants := None;
     teams_participants := None;
     text_input := fun label =>
       if bool_decide (label = "SPEAKER_0") then "Xavier" else "Yolanda" |}.

Definition two_voices : list DiarizationSegment :=
  [ {| d_start := 0; d_end := 5; d_speaker := "SPEAKER_0"; d_duration := 5 |};
    {| d_start := 5; d_end := 10; d_speaker := "SPEAKER_1"; d_duration := 5 |} ].

Definition two_turns : list MergedSegment :=
  [ said "SPEAKER_0" 0 5 "hello"; said "SPEAKER_1" 5 10 "good morning" ].

(** ** Vocabulary of the further properties *)

(** The transcript range [[s, e]] as a diarization segment. *)
Definition as_segment (s e : Q) : DiarizationSegment :=
  {| d_start := s; d_end := e; d_speaker := ""; d_duration := (e - s)%Q |}.

Ltac split_minmax :=
  repeat match goal with
  | |- context [Qmax ?a ?b] =>
      let H := fresh in
      destruct (Q.max_spec a b) as [[? H]|[? H]]; rewrite H in *; clear H
  | |- context [Qmin ?a ?b] =>
      let H := fresh in
      destruct (Q.min_spec a b) as [[? H]|[? H]]; rewrite H in *; clear H
  | _ : context [Qmax ?a ?b] |- _ =>
      let H := fresh in
      destruct (Q.max_spec a b) as [[? H]|[? H]]; rewrite H in *; clear H
  | _ : context [Qmin ?a ?b] |- _ =>
      let H := fresh in
      destruct (Q.min_spec a b) as [[? H]|[? H]]; rewrite H in *; clear H
  end.

(** What the pass never changes of a segment it keeps. *)
Definition kept_fields (m : MergedSegment) : string * Q * string * Q :=
  (speaker m, start_seconds m, m_start m, confidence m).

(** The test of the extraction loop on one non-silent range, and the dict
    and the feature it appends. *)
Definition start_sample_of (ms : Z) : Z :=
  int_of_float (inject_Z ms / 1000 * inject_Z sr).

Definition long_enough (audio : AudioFile) (range : Z * Z) : bool :=
  Qltb (inject_Z sr * (3 # 10))
       (inject_Z (slice_len (num_samples audio)
                    (start_sample_of range.1) (start_sample_of range.2))).

Definition range_segment (range : Z * Z) : FallbackSegment :=
  {| f_start := (inject_Z range.1 / 1000)%Q;
     f_end := (inject_Z range.2 / 1000)%Q;
     f_duration := (inject_Z range.2 / 1000 - inject_Z range.1 / 1000)%Q;
     f_speaker := None |}.

(** The dict of [segments[i]] after [segments[i]['speaker'] = f"SPEAKER_{label}"]. *)
Definition labelled (label : Z) (s : FallbackSegment) : FallbackSegment :=
  with_speaker ("SPEAKER_" +:+ str_int label) s.

(** The list of dicts as [find_speaker_at_time] reads it: every dict needs
    its ['speaker']. *)
Definition diarization_data_of (segments : list FallbackSegment)
    : option (list DiarizationSegment) :=
  mapM (fun s =>
          speaker ← f_speaker s;
          Some {| d_start := f_start s; d_end := f_end s;
                  d_speaker := speaker; d_duration := f_duration s |})
       segments.

(** The time range of a dict of the fallback diarizer. *)
Definition time_range (s : FallbackSegment) : Q * Q * Q :=
  (f_start s, f_end s, f_duration s).

Definition digit_value (c : ascii) : Z := Z.of_nat (nat_of_ascii c) - 48.

(** The whole milliseconds that a string of the form HH:MM:SS.mmm denotes. *)
Definition read_hh_mm_ss_mmm (s : string) : option Z :=
  match s with
  | String h1 (String h2 (String _ (String m1 (String m2 (String _
      (String s1 (String s2 (String _ (String f1 (String f2 (String f3
        EmptyString))))))))))) =>
      let hours := digit_value h1 * 10 + digit_value h2 in
      let minutes := digit_value m1 * 10 + digit_value m2 in
      let seconds := digit_value s1 * 10 + digit_value s2 in
      let milliseconds :=
        digit_value f1 * 100 + digit_value f2 * 10 + digit_value f3 in
      Some (((hours * 60 + minutes) * 60 + seconds) * 1000 + milliseconds)
  | _ => None
  end%Z.

Fixpoint count_char (c : ascii) (s : string) : nat :=
  match s with
  | "" => 0
  | String c' s' => (if Ascii.eqb c' c then 1 else 0) + count_char c s'
  end.

(** What the renaming keeps of a segment. *)
Definition renamed_from (env : NameSources) (before after : MergedSegment) : Prop :=
  speaker after = text_input env (speaker before) /\
  speaker after <> "" /\
  m_start after = m_start before /\ m_end after = m_end before /\
  start_seconds after = start_seconds before /\
  end_seconds after = end_seconds before /\
  text after = text before /\ words after = words before /\
  confidence after = confidence before.

(** Two remarks of a transcript, the first without the optional keys. *)
Definition two_remarks : list TranscriptSegment :=
  [ {| ts_start := 1; ts_end := 4; ts_text := "hello";
       ts_words := None; ts_no_speech_prob := None |};
    {| ts_start := 6; ts_end := 9; ts_text := "good morning";
       ts_words := Some []; ts_no_speech_prob := Some (1 # 10) |} ].

(** Speech of 1 s, a burst of 0.1 s and speech of 1.5 s, in 5 s of audio;
    the burst alone. *)
Definition speech_with_burst : AudioFile :=
  {| file_duration := 5; decodable := true;
     nonsilent_ranges := [(0, 1000); (2000, 2100); (3000, 4500)]%Z;
     num_samples := 80000 |}.
Definition burst_only : AudioFile :=
  {| file_duration := 5; decodable := true;
     nonsilent_ranges := [(2000, 2100)%Z];
     num_samples := 80000 |}.

(** A machine with [pyannote.audio] and no [HF_TOKEN]. *)
Definition no_token : Backend :=
  {| PYANNOTE_AVAILABLE := true; HF_TOKEN := None;
     run_pipeline := fun _ _ => Some [] |}.

(** No source knows the meeting, and the form is left blank. *)
Definition nothing_known : NameSources :=
  {| use_bot_data := true;
     bot_capture_file := None;
     calendar_attendees := None;
     zoom_participants := None;
     teams_participants := None;
     text_input := fun _ => "" |}.

(** A source that answers with no name at all, as one that does not answer. *)
Definition forget_empty (names : option (list string)) : option (list string) :=
  match names with
  | Some [] => None
  | _ => names
  end.

Definition without_empty_answers (env : NameSources) : NameSources :=
  {| use_bot_data := use_bot_data env;
     bot_capture_file := forget_empty (bot_capture_file env);
     calendar_attendees := forget_empty (calendar_attendees env);
     zoom_participants := forget_empty (zoom_participants env);
     teams_participants := forget_empty (teams_participants env);
     text_input := text_input env |}.

(** * Properties *)

(** ** Rationals *)

Lemma Qltb_lt (a b : Q) : Qltb a b = true <-> (a < b)%Q.
Proof.
  unfold Qltb. rewrite Qlt_alt.
  destruct (a ?= b)%Q; split; congruence.
Qed.

Lemma Qltb_ge (a b : Q) : Qltb a b = false <-> (b <= a)%Q.
Proof.
  split; intros H.
  - apply Qnot_lt_le. intros Hlt. apply Qltb_lt in Hlt. congruence.
  - destruct (Qltb a b) eqn:E; [|reflexivity].
    apply Qltb_lt in E. exfalso. revert E. apply Qle_not_lt, H.
Qed.

(** ** Fusion: the overlap *)

Lemma overlap_nonneg (s e : Q) (D : DiarizationSegment) : (0 <= overlap s e D)%Q.
Proof. unfold overlap. apply Q.le_max_l. Qed.

(** A segment that contains [[s, e]] overlaps it on its whole length. *)
Lemma overlap_containing (s e : Q) (D : DiarizationSegment) :
  (s < e)%Q -> (d_start D <= s)%Q -> (e <= d_end D)%Q ->
  (overlap s e D == e - s)%Q.
Proof.
  intros Hse Hs He. unfold overlap.
  destruct (Q.max_spec s (d_start D)) as [[? ->]|[? ->]];
  destruct (Q.min_spec e (d_end D)) as [[? ->]|[? ->]];
  match goal with |- (Qmax 0 ?x == _)%Q =>
    destruct (Q.max_spec 0 x) as [[? ->]|[? ->]] end; lra.
Qed.

(** A segment that does not contain [[s, e]] overlaps it on less. *)
Lemma overlap_not_containing (s e : Q) (D : DiarizationSegment) :
  (s < e)%Q -> ~ ((d_start D <= s)%Q /\ (e <= d_end D)%Q) ->
  (overlap s e D < e - s)%Q.
Proof.
  intros Hse Hnot. unfold overlap.
  assert (Hcase : (s < d_start D)%Q \/ (d_end D < e)%Q).
  { destruct (Qlt_le_dec s (d_start D)) as [?|Hs]; [by left|].
    destruct (Qlt_le_dec (d_end D) e) as [?|He]; [by right|].
    exfalso. apply Hnot. by split. }
  destruct (Q.max_spec s (d_start D)) as [[? ->]|[? ->]];
  destruct (Q.min_spec e (d_end D)) as [[? ->]|[? ->]];
  match goal with |- (Qmax 0 ?x < _)%Q =>
    destruct (Q.max_spec 0 x) as [[? ->]|[? ->]] end;
  destruct Hcase; lra.
Qed.

(** ** Fusion: the loop of [find_speaker_at_time] *)

Lemma find_speaker_loop_invariant (s e : Q) (b0 : string)
    (pre : list DiarizationSegment) :
  best_so_far s e b0 pre (fold_left (find_speaker_step s e) pre (0%Q, b0)).
Proof.
  induction pre as [|x pre IH] using rev_ind.
  - split; [intros D HD; inversion HD | left; split; [reflexivity | reflexivity]].
  - rewrite fold_left_app. simpl.
    destruct (fold_left (find_speaker_step s e) pre (0%Q, b0)) as [m b].
    destruct IH as [Hbound Hbest]. simpl in Hbound, Hbest.
    assert (Hm : (0 <= m)%Q).
    { destruct Hbest as [[-> _]|(_ & _ & _ & _ & _ & Hpos & _)]; lra. }
    unfold find_speaker_step.
    destruct (Qltb m (overlap s e x)) eqn:Hcmp.
    + apply Qltb_lt in Hcmp. split; simpl.
      * intros D [HD| ->%list_elem_of_singleton]%elem_of_app; [|lra].
        specialize (Hbound D HD). lra.
      * right. exists (length pre), x. split; [by apply list_lookup_middle|].
        split; [reflexivity|]. split; [reflexivity|]. split; [lra|].
        intros j D' Hj HD'. rewrite lookup_app_l in HD' by done.
        apply list_elem_of_lookup_2 in HD'. specialize (Hbound D' HD'). lra.
    + apply Qltb_ge in Hcmp. split; simpl.
      * intros D [HD| ->%list_elem_of_singleton]%elem_of_app; [|done].
        by apply Hbound.
      * destruct Hbest as [?|(i & D & Hi & Hb & Ho & Hpos & Hfirst)]; [by left|].
        right. exists i, D.
        assert (Hlt : (i < length pre)%nat) by (by eapply lookup_lt_Some).
        split; [by rewrite lookup_app_l|]. repeat (split; [done|]).
        intros j D' Hj HD'. rewrite lookup_app_l in HD' by lia.
        by eapply Hfirst.
Qed.

(** On a non-empty diarization the function answers the speaker of the
    first segment of maximal overlap. *)
Lemma find_speaker_first_argmax (s e : Q) (diar : list DiarizationSegment) :
  diar <> [] ->
  exists i D, diar !! i = Some D /\
    find_speaker_at_time s e diar = d_speaker D /\
    (forall D', D' ∈ diar -> (overlap s e D' <= overlap s e D)%Q) /\
    (forall j D', (j < i)%nat -> diar !! j = Some D' ->
       (overlap s e D' < overlap s e D)%Q).
Proof.
  destruct diar as [|first rest]; [done|]. intros _.
  unfold find_speaker_at_time.
  pose proof (find_speaker_loop_invariant s e (d_speaker first) (first :: rest))
    as [Hbound Hbest].
  destruct (fold_left _ (first :: rest) _) as [m b]. simpl in *.
  destruct Hbest as [[Hm ->]|(i & D & Hi & -> & Ho & Hpos & Hfirst)].
  - exists 0%nat, first. split; [done|]. split; [done|]. split.
    + intros D' HD'. specialize (Hbound D' HD').
      pose proof (overlap_nonneg s e first). lra.
    + intros j D' Hj. lia.
  - exists i, D. split; [done|]. split; [done|]. split.
    + intros D' HD'. specialize (Hbound D' HD'). lra.
    + intros j D' Hj HD'. specialize (Hfirst j D' Hj HD'). lra.
Qed.

(** With no diarization at all the answer is the default label. *)
Lemma find_speaker_no_diarization (s e : Q) :
  find_speaker_at_time s e [] = "SPEAKER_0".
Proof. reflexivity. Qed.

(** The loop with its [append] builds the image of the transcript. *)
Lemma merge_transcript_is_map (ts : list TranscriptSegment)
    (d : list DiarizationSegment) :
  merge_transcript_with_diarization ts d = merged_of d <$> ts.
Proof.
  unfold merge_transcript_with_diarization.
  enough (H : forall acc,
    fold_left (fun merged segment => merged ++ [merged_of d segment]) ts acc
    = acc ++ (merged_of d <$> ts)) by apply H.
  induction ts as [|t ts IH]; intros acc; simpl.
  - by rewrite app_nil_r.
  - rewrite IH. by rewrite <- app_assoc.
Qed.


(** C10. On a non-empty diarization, a transcript segment that overlaps no
    diarization segment gets the speaker of the first diarization segment. *)
Theorem find_speaker_zero_overlap_first (s e : Q)
    (first : DiarizationSegment) (rest : list DiarizationSegment)
    (Hzero : forall D, D ∈ first :: rest -> (overlap s e D == 0)%Q) :
  find_speaker_at_time s e (first :: rest) = d_speaker first.
Proof.
  unfold find_speaker_at_time.
  pose proof (find_speaker_loop_invariant s e (d_speaker first) (first :: rest))
    as [_ Hbest].
  destruct (fold_left _ (first :: rest) _) as [m b]. simpl in *.
  destruct Hbest as [[_ ->]|(i & D & Hi & _ & Ho & Hpos & _)]; [done|].
  specialize (Hzero D (list_elem_of_lookup_2 _ _ _ Hi)). lra.
Qed.

(** C2. Fusion returns one merged segment per transcript segment, in the
    order of the transcript, and the confidence of each is one minus the
    [no_speech_prob] of its source, or one when the source has none. *)
Theorem merge_count_order_confidence
    (ts : list TranscriptSegment) (d : list DiarizationSegment) :
  length (merge_transcript_with_diarization ts d) = length ts /\
  Forall2 fused_from ts (merge_transcript_with_diarization ts d).
Proof.
  rewrite merge_transcript_is_map. split; [apply length_fmap|].
  induction ts as [|t ts IH]; constructor; [|exact IH].
  unfold fused_from, merged_of; simpl.
  destruct (ts_no_speech_prob t); done.
Qed.

(** C7. With an empty diarization every merged segment is given
    SPEAKER_0, whatever the transcript; so are the three outputs of a
    transcript of three segments. *)
Theorem merge_empty_diarization_speaker_0 (ts : list TranscriptSegment) :
  Forall (fun m => speaker m = "SPEAKER_0")
    (merge_transcript_with_diarization ts []) /\
  forall t1 t2 t3,
    speaker <$> merge_transcript_with_diarization [t1; t2; t3] []
    = ["SPEAKER_0"; "SPEAKER_0"; "SPEAKER_0"].
Proof.
  split; [|reflexivity].
  rewrite merge_transcript_is_map. apply Forall_fmap, Forall_true.
  intros t. reflexivity.
Qed.



Lemma find_speaker_zero_overlap_first_witness :
  (forall D, D ∈ [seg_A; seg_B] -> (overlap 12 14 D == 0)%Q) /\
  find_speaker_at_time 12 14 [seg_A; seg_B] = "SPK0".
Proof.
  assert (Hzero : forall D, D ∈ [seg_A; seg_B] -> (overlap 12 14 D == 0)%Q).
  { intros D [->|HD]%elem_of_cons; [reflexivity|].
    apply list_elem_of_singleton in HD as ->. reflexivity. }
  split; [exact Hzero|].
  exact (find_speaker_zero_overlap_first 12 14 seg_A [seg_B] Hzero).
Defined.

(** ** Strings *)

Lemma append_cons (c : ascii) (s t : string) :
  String c s +:+ t = String c (s +:+ t).
Proof. reflexivity. Qed.

Lemma append_assoc (s t u : string) : (s +:+ t) +:+ u = s +:+ (t +:+ u).
Proof.
  induction s as [|c s IH]; [reflexivity|].
  rewrite !append_cons. by rewrite IH.
Qed.

(** ** Boundary refinement *)

(** The loop of the code computes the pass that the specification words. *)
Lemma refine_loop_spec (g : Q) (rest front : list MergedSegment)
    (current : MergedSegment) :
  (let '(front', last_segment) :=
     fold_left (refine_step g) rest (front, current) in
   front' ++ [last_segment])
  = front ++ refine_from g current rest.
Proof.
  revert front current.
  induction rest as [|x rest IH]; intros front current; [reflexivity|].
  simpl. destruct (should_merge g current x).
  - apply IH.
  - rewrite IH. by rewrite <- app_assoc.
Qed.

Lemma refine_speaker_boundaries_spec (X : list MergedSegment) (g : Q) :
  refine_speaker_boundaries X g = refine_spec X g.
Proof.
  destruct X as [|first rest]; [reflexivity|].
  unfold refine_speaker_boundaries, refine_spec.
  apply (refine_loop_spec g rest [] first).
Qed.

Lemma refine_from_length (g : Q) (rest : list MergedSegment)
    (current : MergedSegment) :
  (length (refine_from g current rest) <= S (length rest))%nat.
Proof.
  revert current.
  induction rest as [|x rest IH]; intros current; simpl; [lia|].
  destruct (should_merge g current x); simpl.
  - specialize (IH (merge_into current x)). lia.
  - specialize (IH x). lia.
Qed.

(** The pass emits at least one segment, and its first segment carries the
    speaker and the start of the segment it began with. *)
Lemma refine_from_head (g : Q) (rest : list MergedSegment)
    (current : MergedSegment) :
  exists h t, refine_from g current rest = h :: t /\
    speaker h = speaker current /\
    start_seconds h = start_seconds current.
Proof.
  revert current.
  induction rest as [|x rest IH]; intros current; simpl.
  - by exists current, [].
  - destruct (should_merge g current x).
    + destruct (IH (merge_into current x)) as (h & t & -> & Hs & Ht).
      by exists h, t.
    + by exists current, (refine_from g x rest).
Qed.

Lemma join_texts_cons (a b : string) (l : list string) :
  join_texts (a :: b :: l) = a +:+ " " +:+ join_texts (b :: l).
Proof. reflexivity. Qed.

(** Joining two neighbours first changes nothing to the whole. *)
Lemma join_texts_merge (a b : string) (l : list string) :
  join_texts ((a +:+ " " +:+ b) :: l) = join_texts (a :: b :: l).
Proof.
  destruct l as [|c l]; [reflexivity|].
  rewrite !join_texts_cons. by rewrite !append_assoc.
Qed.

Lemma refine_from_texts (g : Q) (rest : list MergedSegment)
    (current : MergedSegment) :
  join_texts (text <$> refine_from g current rest)
  = join_texts (text <$> current :: rest).
Proof.
  revert current.
  induction rest as [|x rest IH]; intros current; [reflexivity|].
  simpl refine_from. destruct (should_merge g current x).
  - rewrite IH. rewrite !fmap_cons. apply join_texts_merge.
  - rewrite !fmap_cons. specialize (IH x). rewrite fmap_cons in IH.
    destruct (refine_from_head g rest x) as (h & t & E & _).
    rewrite E in *. rewrite fmap_cons in *.
    rewrite !join_texts_cons. by rewrite IH.
Qed.

Lemma refine_from_words (g : Q) (rest : list MergedSegment)
    (current : MergedSegment) :
  concat (words <$> refine_from g current rest)
  = concat (words <$> current :: rest).
Proof.
  revert current.
  induction rest as [|x rest IH]; intros current; [reflexivity|].
  simpl refine_from. destruct (should_merge g current x).
  - rewrite IH. rewrite !fmap_cons. simpl. by rewrite app_assoc.
  - rewrite !fmap_cons. simpl. by rewrite IH.
Qed.

(** The test reads the speaker and the start of the incoming segment only. *)
Lemma should_merge_incoming (g : Q) (a b b' : MergedSegment) :
  speaker b' = speaker b -> start_seconds b' = start_seconds b ->
  should_merge g a b' = should_merge g a b.
Proof. unfold should_merge. by intros -> ->. Qed.

Lemma refine_from_settled (g : Q) (rest : list MergedSegment)
    (current : MergedSegment) :
  settled g (refine_from g current rest).
Proof.
  revert current.
  induction rest as [|x rest IH]; intros current; simpl; [done|].
  destruct (should_merge g current x) eqn:Hm; [apply IH|].
  destruct (refine_from_head g rest x) as (h & t & E & Hs & Ht).
  specialize (IH x). rewrite E in *. split; [|exact IH].
  by rewrite (should_merge_incoming g current x h).
Qed.

Lemma refine_from_fixed (g : Q) (rest : list MergedSegment)
    (current : MergedSegment) :
  settled g (current :: rest) -> refine_from g current rest = current :: rest.
Proof.
  revert current.
  induction rest as [|x rest IH]; intros current; [done|].
  intros [Hm Hrest]. simpl. rewrite Hm. f_equal. by apply IH.
Qed.

(** The two outcomes of one iteration, by the condition of the [if]. *)
Lemma refine_step_cases (g : Q) (front : list MergedSegment)
    (current next : MergedSegment) :
  (speaker next = speaker current /\
   (start_seconds next - end_seconds current < g)%Q ->
   refine_step g (front, current) next = (front, merge_into current next)) /\
  (~ (speaker next = speaker current /\
      (start_seconds next - end_seconds current < g)%Q) ->
   refine_step g (front, current) next = (front ++ [current], next)).
Proof.
  unfold refine_step, should_merge. split.
  - intros [Hs Hg]. apply Qltb_lt in Hg. rewrite Hg.
    by rewrite bool_decide_eq_true_2.
  - intros Hnot. case_bool_decide as Hs; [|done].
    destruct (Qltb _ _) eqn:Hg; [|done].
    apply Qltb_lt in Hg. exfalso. by apply Hnot.
Qed.

(** C3. The boundary-refinement pass is idempotent: refining a refined
    sequence with the same gap gives the refined sequence again. *)
Theorem refine_idempotent (X : list MergedSegment) (g : Q) :
  refine_speaker_boundaries (refine_speaker_boundaries X g) g
  = refine_speaker_boundaries X g.
Proof.
  rewrite !refine_speaker_boundaries_spec.
  destruct X as [|first rest]; [reflexivity|]. unfold refine_spec at 2 3.
  pose proof (refine_from_settled g rest first) as Hsettled.
  destruct (refine_from g first rest) as [|h t]; [reflexivity|].
  by apply refine_from_fixed.
Qed.

(** C8. The pass returns at most as many segments as it is given; all the
    text, joined by single spaces, and all the words, concatenated, are those
    of the input in the same order; an incoming segment merges into the
    current one exactly when it has the same speaker and its start is less
    than [min_gap] after the end of the current one, and the merge moves
    the end of the current segment to the end of the incoming one, joins
    the texts with one space and appends the words. *)
Theorem refine_preserves_content (X : list MergedSegment) (min_gap : Q) :
  (length (refine_speaker_boundaries X min_gap) <= length X)%nat /\
  join_texts (text <$> refine_speaker_boundaries X min_gap)
    = join_texts (text <$> X) /\
  concat (words <$> refine_speaker_boundaries X min_gap)
    = concat (words <$> X) /\
  forall front current next,
    let close :=
      speaker next = speaker current /\
      (start_seconds next - end_seconds current < min_gap)%Q in
    (close ->
     exists merged,
       refine_step min_gap (front, current) next = (front, merged) /\
       m_end merged = m_end next /\
       end_seconds merged = end_seconds next /\
       m_start merged = m_start current /\
       start_seconds merged = start_seconds current /\
       speaker merged = speaker current /\
       text merged = text current +:+ " " +:+ text next /\
       words merged = words current ++ words next) /\
    (~ close ->
     refine_step min_gap (front, current) next = (front ++ [current], next)).
Proof.
  rewrite refine_speaker_boundaries_spec.
  split; [|split; [|split]].
  - destruct X as [|first rest]; simpl; [lia|]. apply refine_from_length.
  - destruct X as [|first rest]; [reflexivity|]. apply refine_from_texts.
  - destruct X as [|first rest]; [reflexivity|]. apply refine_from_words.
  - intros front current next close.
    destruct (refine_step_cases min_gap front current next) as [Hyes Hno].
    split; [|exact Hno].
    intros Hclose. exists (merge_into current next).
    split; [by apply Hyes|]. repeat split.
Qed.

Lemma refine_preserves_content_witness :
  (speaker (said "SPEAKER_0" (13 # 10) 2 "morning")
     = speaker (said "SPEAKER_0" 0 1 "good") /\
   (start_seconds (said "SPEAKER_0" (13 # 10) 2 "morning")
      - end_seconds (said "SPEAKER_0" 0 1 "good") < 1 # 2)%Q) /\
  exists merged,
    refine_step (1 # 2) ([], said "SPEAKER_0" 0 1 "good")
      (said "SPEAKER_0" (13 # 10) 2 "morning") = ([], merged) /\
    end_seconds merged = 2%Q /\
    text merged = "good morning".
Proof.
  assert (Hclose :
    speaker (said "SPEAKER_0" (13 # 10) 2 "morning")
      = speaker (said "SPEAKER_0" 0 1 "good") /\
    (start_seconds (said "SPEAKER_0" (13 # 10) 2 "morning")
       - end_seconds (said "SPEAKER_0" 0 1 "good") < 1 # 2)%Q)
    by (split; reflexivity).
  split; [exact Hclose|].
  destruct (proj1 (proj2 (proj2 (proj2 (refine_preserves_content [] (1 # 2))))
                     [] (said "SPEAKER_0" 0 1 "good")
                     (said "SPEAKER_0" (13 # 10) 2 "morning")) Hclose)
    as (merged & Hstep & _ & Hend & _ & _ & _ & Htext & _).
  exists merged. split; [exact Hstep|]. split; [exact Hend | exact Htext].
Defined.

Example refine_gap_merges :
  refine_speaker_boundaries
    [said "SPEAKER_0" 0 1 "good"; said "SPEAKER_0" (13 # 10) 2 "morning"] (1 # 2)
  = [said "SPEAKER_0" 0 2 "good morning"].
Proof. reflexivity. Qed.

Example refine_gap_keeps :
  refine_speaker_boundaries
    [said "SPEAKER_0" 0 1 "good"; said "SPEAKER_0" (13 # 10) 2 "morning"] (2 # 10)
  = [said "SPEAKER_0" 0 1 "good"; said "SPEAKER_0" (13 # 10) 2 "morning"].
Proof. reflexivity. Qed.

(** ** Boundary refinement on the store *)

Lemma merge_in_place_views (σ : Store) (l s : nat) (cur v : MergedSegment) :
  view σ l = Some cur -> view σ s = Some v ->
  l <> s -> words_ref σ l <> words_ref σ s ->
  exists σ', merge_in_place σ l s = Some σ' /\
    view σ' l = Some (merge_into cur v) /\
    (forall r, words_ref σ' r = words_ref σ r) /\
    (forall r, r <> l -> words_ref σ r <> words_ref σ l -> view σ' r = view σ r).
Proof.
  unfold view, merge_in_place, words_ref. intros Hl Hs Hne Hwne.
  destruct (dicts σ !! l) as [dl|] eqn:Hdl; [|done].
  destruct (dicts σ !! s) as [ds|] eqn:Hds; [|done].
  simpl in *.
  destruct (lists σ !! o_words dl) as [wl|] eqn:Hwl; [|done].
  destruct (lists σ !! o_words ds) as [ws|] eqn:Hws; [|done].
  simpl in *. simplify_eq. eexists. split; [done|]. simpl.
  split; [|split].
  - rewrite lookup_insert_eq. simpl. rewrite lookup_insert_eq. done.
  - intros r. destruct (decide (r = l)) as [->|Hr].
    + rewrite lookup_insert_eq, Hdl. done.
    + by rewrite lookup_insert_ne.
  - intros r Hr Hwr. rewrite lookup_insert_ne by done.
    destruct (dicts σ !! r) as [dr|] eqn:Hdr; [|done]. simpl in *.
    rewrite lookup_insert_ne; [done|]. intros Heq. apply Hwr. by rewrite Heq.
Qed.

Lemma separated_cons_inv (σ : Store) (r : nat) (refs : list nat) :
  separated σ (r :: refs) ->
  separated σ refs /\
  forall r', r' ∈ refs -> r' <> r /\ words_ref σ r' <> words_ref σ r.
Proof.
  intros Hsep. split.
  - intros i j r1 r2 Hij H1 H2. apply (Hsep (S i) (S j)); [lia|done..].
  - intros r' [k Hk]%list_elem_of_lookup_1.
    apply (Hsep (S k) 0%nat); [lia|done..].
Qed.

Lemma separated_middle (σ : Store) (front : list nat) (l : nat) (rest : list nat) :
  separated σ (front ++ l :: rest) ->
  forall r, r ∈ front ++ rest -> r <> l /\ words_ref σ r <> words_ref σ l.
Proof.
  intros Hsep r [Hr|Hr]%elem_of_app.
  - apply list_elem_of_lookup_1 in Hr as [k Hk].
    pose proof (lookup_lt_Some _ _ _ Hk) as Hlt.
    apply (Hsep k (length front)); [lia| |].
    + by rewrite lookup_app_l.
    + by apply list_lookup_middle.
  - apply list_elem_of_lookup_1 in Hr as [k Hk].
    apply (Hsep (length front + S k)%nat (length front)); [lia| |].
    + rewrite lookup_app_r by lia.
      replace (length front + S k - length front)%nat with (S k) by lia. done.
    + by apply list_lookup_middle.
Qed.

Lemma separated_drop (σ : Store) (front : list nat) (l s : nat) (rest : list nat) :
  separated σ (front ++ l :: s :: rest) -> separated σ (front ++ l :: rest).
Proof.
  intros Hsep i j r1 r2 Hij H1 H2.
  set (up := fun k : nat => if decide (k <= length front)%nat then k else S k).
  assert (Hup : forall k r, (front ++ l :: rest) !! k = Some r ->
                  (front ++ l :: s :: rest) !! up k = Some r).
  { intros k r Hk. unfold up. case_decide as Hle.
    - destruct (decide (k < length front)%nat).
      + rewrite lookup_app_l in Hk |- * by done. done.
      + assert (k = length front) as -> by lia.
        rewrite list_lookup_middle in Hk |- * by done. done.
    - rewrite lookup_app_r in Hk |- * by lia.
      destruct (k - length front)%nat as [|n] eqn:E; [lia|].
      replace (S k - length front)%nat with (S (S n)) by lia. done. }
  apply (Hsep (up i) (up j)); [|by apply Hup..].
  unfold up. repeat case_decide; lia.
Qed.

Lemma separated_words_ref (σ σ' : Store) (refs : list nat) :
  (forall r, words_ref σ' r = words_ref σ r) ->
  separated σ refs -> separated σ' refs.
Proof.
  intros Hsame Hsep i j r1 r2 Hij H1 H2.
  rewrite !Hsame. by apply (Hsep i j).
Qed.

Lemma views_frame (σ σ' : Store) (refs : list nat) (vs : list MergedSegment) :
  (forall r, r ∈ refs -> view σ' r = view σ r) ->
  views σ refs vs -> views σ' refs vs.
Proof.
  intros Hsame Hviews. unfold views in *.
  induction Hviews as [|r v refs vs Hr Hrest IH]; constructor.
  - rewrite Hsame; [done|]. by left.
  - apply IH. intros r' Hr'. apply Hsame. by right.
Qed.

(** The loop on references does to the store what the loop on values
    computes, as long as the references are separated. *)
Lemma refine_store_loop (g : Q) (rest : list nat) :
  forall (front : list nat) (last_ref : nat) (σ : Store)
         (front_vs : list MergedSegment) (cur : MergedSegment)
         (rest_vs : list MergedSegment),
    separated σ (front ++ last_ref :: rest) ->
    views σ front front_vs ->
    view σ last_ref = Some cur ->
    views σ rest rest_vs ->
    exists front' last' σ',
      fold_left (refine_store_step g) rest (Some (front, last_ref, σ))
        = Some (front', last', σ') /\
      views σ' (front' ++ [last']) (front_vs ++ refine_from g cur rest_vs).
Proof.
  induction rest as [|s rest IH];
    intros front last_ref σ front_vs cur rest_vs Hsep Hfront Hlast Hrest.
  - apply Forall2_nil_inv_l in Hrest as ->.
    exists front, last_ref, σ. split; [done|].
    apply Forall2_app; [done|]. by constructor.
  - apply Forall2_cons_inv_l in Hrest as (v & rest_vs' & Hs & Hrest & ->).
    pose proof (separated_middle σ front last_ref (s :: rest) Hsep) as Hmid.
    assert (Hstep : refine_store_step g (Some (front, last_ref, σ)) s
                    = if should_merge g cur v
                      then σ' ← merge_in_place σ last_ref s;
                           Some (front, last_ref, σ')
                      else Some (front ++ [last_ref], s, σ)).
    { unfold refine_store_step. simpl. rewrite Hlast. simpl. by rewrite Hs. }
    cbn [fold_left]. rewrite Hstep. clear Hstep.
    simpl refine_from.
    destruct (should_merge g cur v) eqn:Hmerge.
    + destruct (Hmid s) as [Hne Hwne]; [apply elem_of_app; right; by left|].
      destruct (merge_in_place_views σ last_ref s cur v Hlast Hs)
        as (σ1 & -> & Hlast1 & Hwords & Hframe); [done..|].
      simpl. apply (IH front last_ref σ1 front_vs (merge_into cur v) rest_vs').
      * eapply separated_words_ref; [done|]. by eapply separated_drop.
      * eapply views_frame; [|done]. intros r Hr.
        destruct (Hmid r) as [? ?]; [apply elem_of_app; by left|].
        by apply Hframe.
      * done.
      * eapply views_frame; [|done]. intros r Hr.
        destruct (Hmid r) as [? ?]; [apply elem_of_app; right; by right|].
        by apply Hframe.
    + destruct (IH (front ++ [last_ref]) s σ (front_vs ++ [cur]) v rest_vs')
        as (front' & last' & σ' & Hfold & Hviews).
      * by rewrite <- app_assoc.
      * apply Forall2_app; [done|]. by constructor.
      * done.
      * done.
      * exists front', last', σ'. split; [done|].
        by rewrite <- app_assoc in Hviews.
Qed.

(** On separated objects the pass on the store returns references whose
    values are what the pass on values returns. *)
Lemma refine_store_simulates (σ : Store) (refs : list nat)
    (vs : list MergedSegment) (g : Q) :
  separated σ refs -> views σ refs vs ->
  exists refs' σ',
    refine_speaker_boundaries_store refs g σ = Some (refs', σ') /\
    views σ' refs' (refine_speaker_boundaries vs g).
Proof.
  intros Hsep Hviews. rewrite refine_speaker_boundaries_spec.
  destruct refs as [|first rest].
  - apply Forall2_nil_inv_l in Hviews as ->. exists [], σ. split; [done|].
    constructor.
  - apply Forall2_cons_inv_l in Hviews as (v & vs' & Hfirst & Hrest & ->).
    destruct (refine_store_loop g rest [] first σ [] v vs')
      as (front' & last' & σ' & Hfold & Hviews); [done|constructor|done..|].
    exists (front' ++ [last']), σ'. split; [|done].
    unfold refine_speaker_boundaries_store. rewrite Hfold. done.
Qed.

(** Two dicts with their word lists, 0.3 s apart, merged in place. *)
Example refine_store_merges :
  exists σ',
    refine_speaker_boundaries_store [0; 1]%nat (1 # 2) two_objects
      = Some ([0%nat], σ') /\
    view σ' 0%nat = Some (said "SPEAKER_0" 0 2 "good morning").
Proof. eexists. split; vm_compute; reflexivity. Qed.

(** ** Timestamps *)

Lemma int_of_float_inject (z : Z) : int_of_float (inject_Z z) = z.
Proof. unfold int_of_float. simpl. apply Z.quot_1_r. Qed.

Lemma Qfloor_div_pos (x : Q) (k : positive) :
  Qfloor (x / inject_Z (Zpos k)) = (Qfloor x / Zpos k)%Z.
Proof.
  destruct x as [n d]. unfold Qdiv, Qmult, Qinv, Qfloor. simpl.
  rewrite Z.mul_1_r, Pos2Z.inj_mul. symmetry. apply Z.div_div; lia.
Qed.

Lemma Qfloor_mul_pos (x : Q) (k : positive) :
  Qfloor x = (Qfloor (x * inject_Z (Zpos k)) / Zpos k)%Z.
Proof.
  destruct x as [n d]. unfold Qmult, Qfloor. simpl.
  rewrite Pos.mul_1_r.
  rewrite Z.div_div by lia. rewrite Z.div_mul_cancel_r by lia. reflexivity.
Qed.

(** Truncation after an integer below the floor has been taken off. *)
Lemma int_of_float_minus (x : Q) (z : Z) :
  (z <= Qfloor x)%Z -> int_of_float (x - inject_Z z) = (Qfloor x - z)%Z.
Proof.
  destruct x as [n d]. unfold int_of_float, Qfloor, Qminus, Qplus, Qopp. simpl.
  intros Hz. rewrite Pos.mul_1_r, Z.mul_1_r.
  assert (Hn : (z * Zpos d <= n)%Z).
  { pose proof (Z.mul_div_le n (Zpos d)). nia. }
  rewrite Z.quot_div_nonneg by lia.
  replace (n + - z * Zpos d)%Z with (n + (- z) * Zpos d)%Z by lia.
  rewrite Z.div_add by lia. lia.
Qed.

Lemma int_of_float_minus_mul (x : Q) (z : Z) (k : positive) :
  (z <= Qfloor x)%Z ->
  int_of_float ((x - inject_Z z) * inject_Z (Zpos k))
  = (Qfloor (x * inject_Z (Zpos k)) - z * Zpos k)%Z.
Proof.
  destruct x as [n d].
  unfold int_of_float, Qfloor, Qminus, Qplus, Qopp, Qmult. simpl.
  intros Hz. rewrite !Pos.mul_1_r, Z.mul_1_r.
  assert (Hn : (z * Zpos d <= n)%Z).
  { pose proof (Z.mul_div_le n (Zpos d)). nia. }
  rewrite Z.quot_div_nonneg by nia.
  replace ((n + - z * Zpos d) * Zpos k)%Z
    with (n * Zpos k + (- (z * Zpos k)) * Zpos d)%Z by lia.
  rewrite Z.div_add by lia. lia.
Qed.

Lemma format_0d_two_digits (z : Z) :
  (0 <= z < 100)%Z -> format_0d 2 z = two_digits z.
Proof.
  intros Hz.
  assert (Hall : forallb (fun n => String.eqb (format_0d 2 (Z.of_nat n))
                                     (two_digits (Z.of_nat n))) (seq 0 100) = true)
    by (vm_compute; reflexivity).
  rewrite forallb_forall in Hall. specialize (Hall (Z.to_nat z)).
  rewrite Z2Nat.id in Hall by lia. apply String.eqb_eq, Hall, in_seq. lia.
Qed.

Lemma format_0d_three_digits (z : Z) :
  (0 <= z < 1000)%Z -> format_0d 3 z = three_digits z.
Proof.
  intros Hz.
  assert (Hall : forallb (fun n => String.eqb (format_0d 3 (Z.of_nat n))
                                     (three_digits (Z.of_nat n))) (seq 0 1000) = true)
    by (vm_compute; reflexivity).
  rewrite forallb_forall in Hall. specialize (Hall (Z.to_nat z)).
  rewrite Z2Nat.id in Hall by lia. apply String.eqb_eq, Hall, in_seq. lia.
Qed.

Lemma Qfloor_nonneg (x : Q) : (0 <= x)%Q -> (0 <= Qfloor x)%Z.
Proof.
  intros Hx. change 0%Z with (Qfloor 0). by apply Qfloor_resp_le.
Qed.

Lemma Qfloor_minus_inject (x : Q) (z : Z) :
  Qfloor (x - inject_Z z) = (Qfloor x - z)%Z.
Proof.
  destruct x as [n d]. unfold Qfloor, Qminus, Qplus, Qopp. simpl.
  rewrite Pos.mul_1_r, Z.mul_1_r.
  replace (n + - z * Zpos d)%Z with (n + (- z) * Zpos d)%Z by lia.
  rewrite Z.div_add by lia. lia.
Qed.

Lemma timestamp_fields (x : Q) :
  (0 <= x)%Q ->
  let t := Qfloor (x * 1000) in
  int_of_float (floordiv x 3600) = (t / 3600000)%Z /\
  int_of_float (floordiv (pymod x 3600) 60) = (t / 60000 mod 60)%Z /\
  int_of_float (pymod x 60) = (t / 1000 mod 60)%Z /\
  int_of_float (pymod x 1 * 1000) = (t mod 1000)%Z.
Proof.
  intros Hx t.
  pose proof (Qfloor_nonneg x Hx) as Hq.
  assert (Ht : Qfloor x = (t / 1000)%Z) by apply (Qfloor_mul_pos x 1000).
  unfold pymod, floordiv.
  change 3600%Q with (inject_Z (Zpos 3600)).
  change 60%Q with (inject_Z (Zpos 60)).
  change 1000%Q with (inject_Z (Zpos 1000)).
  change 1%Q with (inject_Z (Zpos 1)).
  rewrite !Qfloor_div_pos.
  rewrite <- !inject_Z_mult.
  rewrite Qfloor_minus_inject, !int_of_float_inject.
  rewrite int_of_float_minus by (apply Z.mul_div_le; lia).
  rewrite int_of_float_minus_mul by (apply Z.mul_div_le; lia).
  change (Qfloor (x * inject_Z 1000)) with t. rewrite Ht.
  repeat split; Z.div_mod_to_equations; lia.
Qed.

Lemma format_timestamp_ms_fields (x : Q) :
  (0 <= x)%Q ->
  let t := Qfloor (x * 1000) in
  format_timestamp_ms x =
    format_0d 2 (t / 3600000) +:+ ":" +:+ format_0d 2 (t / 60000 mod 60) +:+ ":" +:+
    format_0d 2 (t / 1000 mod 60) +:+ "." +:+ format_0d 3 (t mod 1000).
Proof.
  intros Hx t. unfold format_timestamp_ms.
  destruct (timestamp_fields x Hx) as (-> & -> & -> & ->). reflexivity.
Qed.

Lemma digit_is_digit (d : Z) : (0 <= d <= 9)%Z -> is_digit (digit d) = true.
Proof.
  intros Hd.
  assert (Hall : forallb (fun n => is_digit (digit (Z.of_nat n))) (seq 0 10) = true)
    by reflexivity.
  rewrite forallb_forall in Hall. specialize (Hall (Z.to_nat d)).
  rewrite Z2Nat.id in Hall by lia. apply Hall, in_seq. lia.
Qed.

Lemma hh_mm_ss_mmm_chars (t : Z) :
  hh_mm_ss_mmm t =
  String (digit (t / 3600000 / 10)) (String (digit ((t / 3600000) mod 10))
  (String ":"
  (String (digit (t / 60000 mod 60 / 10)) (String (digit ((t / 60000 mod 60) mod 10))
  (String ":"
  (String (digit (t / 1000 mod 60 / 10)) (String (digit ((t / 1000 mod 60) mod 10))
  (String "."
  (String (digit (t mod 1000 / 100)) (String (digit (t mod 1000 / 10 mod 10))
  (String (digit ((t mod 1000) mod 10)) ""))))))))))).
Proof. reflexivity. Qed.

Lemma hh_mm_ss_mmm_form (t : Z) :
  (0 <= t < 360000000)%Z -> is_hh_mm_ss_mmm (hh_mm_ss_mmm t) = true.
Proof.
  intros Ht. rewrite hh_mm_ss_mmm_chars. unfold is_hh_mm_ss_mmm.
  rewrite !digit_is_digit by (Z.div_mod_to_equations; lia). reflexivity.
Qed.

Lemma Qfloor_mul_1000_bound (x : Q) :
  (0 <= x)%Q -> (x < 360000)%Q -> (0 <= Qfloor (x * 1000) < 360000000)%Z.
Proof.
  intros Hlo Hhi. split.
  - apply Qfloor_nonneg. lra.
  - assert (H : (x * 1000 < inject_Z 360000000)%Q).
    { change (inject_Z 360000000) with 360000000%Q. lra. }
    pose proof (Qfloor_le (x * 1000)) as Hfl.
    apply Z.lt_nge. intros Hge. rewrite Zle_Qle in Hge. lra.
Qed.

(** The milliseconds are cut, not rounded. *)
Example format_timestamp_ms_truncates :
  format_timestamp_ms (19996 # 10000) = "00:00:01.999".
Proof. reflexivity. Qed.




(** ** The fallback diarizer *)

Lemma cluster_count_default (n : Z) :
  cluster_count None n = Z.min (clamp (n / 10) 2 5) n.
Proof.
  unfold cluster_count, clamp.
  destruct (Z.ltb_spec (n / 10) 2); [lia|].
  destruct (Z.ltb_spec 5 (n / 10)); lia.
Qed.

Lemma cluster_count_le (num_speakers : option Z) (n : Z) :
  (cluster_count num_speakers n <= n)%Z.
Proof. unfold cluster_count. lia. Qed.

Section FallbackFacts.

Context {Feature : Type}.
Variable extract_features : AudioFile -> Z -> Z -> Feature.
Variable fit_predict : Z -> list Feature -> option (list Z).

(** The loop appends to [segments] and to [features] together. *)
Lemma extract_loop_lengths (audio : AudioFile) (ranges : list (Z * Z))
    (segments : list FallbackSegment) (features : list Feature) :
  length segments = length features ->
  length (fold_left (extract_step extract_features audio) ranges
            (segments, features)).1
  = length (fold_left (extract_step extract_features audio) ranges
              (segments, features)).2.
Proof.
  revert segments features.
  induction ranges as [|[start_ms end_ms] ranges IH];
    intros segments features Hlen; [done|].
  simpl. destruct (Qltb _ _); apply IH; [|done].
  rewrite !length_app. simpl. lia.
Qed.

Lemma surviving_intervals_lengths (audio : AudioFile) :
  length (surviving_intervals extract_features audio).1
  = length (surviving_intervals extract_features audio).2.
Proof. by apply extract_loop_lengths. Qed.

(** Every call to the clusterer hands it the features of all the
    surviving intervals, at least two of them, and asks for
    [cluster_count] clusters. *)
Lemma diarize_fallback_calls (caps : Capabilities) (audio : AudioFile)
    (num_speakers : option Z) (k : Z) (features : list Feature) :
  (k, features) ∈
    (diarize_fallback extract_features fit_predict caps audio num_speakers).2 ->
  features = (surviving_intervals extract_features audio).2 /\
  k = cluster_count num_speakers
        (Z.of_nat (length (surviving_intervals extract_features audio).1)) /\
  (1 < length (surviving_intervals extract_features audio).1)%nat.
Proof.
  unfold diarize_fallback.
  destruct (pydub_available caps); simpl; [|by intros ?%elem_of_nil].
  destruct (librosa_sklearn_available caps); simpl; [|by intros ?%elem_of_nil].
  destruct (decodable audio); simpl; [|by intros ?%elem_of_nil].
  destruct (nonsilent_ranges audio) eqn:Hranges; [by intros ?%elem_of_nil|].
  pose proof (surviving_intervals_lengths audio) as Hlen.
  destruct (surviving_intervals extract_features audio) as [segments fs].
  simpl in Hlen.
  destruct fs as [|f fs]; [by intros ?%elem_of_nil|].
  destruct (Z.ltb_spec 1 (Z.of_nat (length (f :: fs)))) as [Hmany|Hone].
  - destruct (fit_predict _ _); simpl;
      intros Hin%list_elem_of_singleton; simplify_eq; (split; [done|split; [done|lia]]).
  - destruct segments; by intros ?%elem_of_nil.
Qed.

(** A lone surviving interval is labelled without the clusterer. *)
Lemma diarize_fallback_single (caps : Capabilities) (audio : AudioFile)
    (num_speakers : option Z) (s : FallbackSegment) (f : Feature) :
  pydub_available caps = true ->
  librosa_sklearn_available caps = true ->
  decodable audio = true ->
  surviving_intervals extract_features audio = ([s], [f]) ->
  diarize_fallback extract_features fit_predict caps audio num_speakers
  = (Returned [with_speaker "SPEAKER_0" s], []).
Proof.
  intros Hpydub Hlibrosa Hdecodable Hone. unfold diarize_fallback.
  rewrite Hpydub, Hlibrosa, Hdecodable. simpl.
  destruct (nonsilent_ranges audio) eqn:Hranges.
  - unfold surviving_intervals in Hone. rewrite Hranges in Hone. discriminate.
  - rewrite Hone. reflexivity.
Qed.

End FallbackFacts.

(** C5 (amended). When pydub, or librosa or scikit-learn, cannot be
    imported, the fallback diarizer returns, without raising and without
    calling the clusterer, exactly one segment labelled SPEAKER_0 that
    starts at 0 and ends at 100, with duration 100, whatever the file. *)
Theorem fallback_missing_capability {Feature : Type}
    (extract_features : AudioFile -> Z -> Z -> Feature)
    (fit_predict : Z -> list Feature -> option (list Z))
    (caps : Capabilities) (audio : AudioFile) (num_speakers : option Z)
    (Hmissing : pydub_available caps = false \/
                librosa_sklearn_available caps = false) :
  diarize_fallback extract_features fit_predict caps audio num_speakers
  = (Returned [ {| f_start := 0; f_end := 100; f_duration := 100;
                   f_speaker := Some "SPEAKER_0" |} ], []).
Proof.
  unfold diarize_fallback.
  destruct Hmissing as [-> | ->]; [reflexivity|].
  destruct (pydub_available caps); reflexivity.
Qed.

Lemma fallback_missing_capability_witness :
  (pydub_available no_pydub = false \/
   librosa_sklearn_available no_pydub = false) /\
  (diarize_fallback (fun _ _ _ => tt) (fun _ _ => None)
     no_pydub one_second_audio None).1
  = Returned [last_resort_segment].
Proof.
  assert (Hmissing : pydub_available no_pydub = false \/
                     librosa_sklearn_available no_pydub = false)
    by (left; reflexivity).
  split; [exact Hmissing|].
  exact (f_equal fst
           (fallback_missing_capability (fun _ _ _ => tt) (fun _ _ => None)
              no_pydub one_second_audio None Hmissing)).
Defined.

(** A file of fifty seconds: the segment returned ends at 100 all the same. *)
Lemma fallback_missing_capability_counterexample :
  exists s,
    (diarize_fallback (fun _ _ _ => tt) (fun _ _ => None)
       no_pydub fifty_seconds_audio None).1 = Returned [s] /\
    f_end s = 100%Q /\
    file_duration fifty_seconds_audio = 50%Q /\
    ~ (f_end s == file_duration fifty_seconds_audio)%Q.
Proof.
  exists last_resort_segment. repeat split. discriminate.
Qed.

(** C6. Without an expected speaker count the cluster count is
    [clamp(n // 10, 2, 5)] capped at [n], the number of surviving intervals:
    the clusterer is never asked for more clusters than it gets intervals
    (at most 3 for 3 intervals); and a lone surviving interval is labelled
    SPEAKER_0 with no call to the clusterer. *)
Theorem fallback_cluster_count {Feature : Type}
    (extract_features : AudioFile -> Z -> Z -> Feature)
    (fit_predict : Z -> list Feature -> option (list Z))
    (caps : Capabilities) (audio : AudioFile) :
  (forall n, cluster_count None n = Z.min (clamp (n / 10) 2 5) n /\
             (cluster_count None n <= n)%Z) /\
  (cluster_count None 3 <= 3)%Z /\
  (forall k features,
     (k, features) ∈
       (diarize_fallback extract_features fit_predict caps audio None).2 ->
     let n := Z.of_nat (length (surviving_intervals extract_features audio).1) in
     features = (surviving_intervals extract_features audio).2 /\
     length features = length (surviving_intervals extract_features audio).1 /\
     k = Z.min (clamp (n / 10) 2 5) n /\
     (k <= n)%Z) /\
  (forall num_speakers s f,
     pydub_available caps = true ->
     librosa_sklearn_available caps = true ->
     decodable audio = true ->
     surviving_intervals extract_features audio = ([s], [f]) ->
     diarize_fallback extract_features fit_predict caps audio num_speakers
     = (Returned [with_speaker "SPEAKER_0" s], [])).
Proof.
  split; [|split; [|split]].
  - intros n. split; [apply cluster_count_default | apply cluster_count_le].
  - apply cluster_count_le.
  - intros k features Hcall n.
    apply diarize_fallback_calls in Hcall as (-> & -> & _).
    split; [done|]. split; [by rewrite surviving_intervals_lengths|].
    split; [apply cluster_count_default | apply cluster_count_le].
  - intros num_speakers s f. apply diarize_fallback_single.
Qed.

(** One surviving interval and a clusterer that would raise if called. *)
Lemma fallback_cluster_count_witness :
  exists s,
    surviving_intervals (fun _ _ _ => tt) one_second_audio = ([s], [tt]) /\
    diarize_fallback (fun _ _ _ => tt) (fun _ _ => None)
      all_capabilities one_second_audio None
    = (Returned [with_speaker "SPEAKER_0" s], []).
Proof.
  eexists. split; [reflexivity|].
  apply (proj2 (proj2 (proj2
           (fallback_cluster_count (fun _ _ _ => tt) (fun _ _ => None)
              all_capabilities one_second_audio))) None _ tt);
    reflexivity.
Defined.

(** ** Speaker-name resolution *)

Lemma truthy_false_default (o : option (gmap string string)) :
  truthy o = false -> default ∅ o = ∅.
Proof.
  destruct o as [m|]; simpl; [|done].
  intros H%bool_decide_eq_false. by destruct (decide (m = ∅)).
Qed.



Lemma truthy_true_default (o : option (gmap string string)) :
  truthy o = true -> default ∅ o <> ∅ /\ o = Some (default ∅ o).
Proof.
  destruct o as [m|]; simpl; [|done].
  by intros H%bool_decide_eq_true.
Qed.

Lemma get_meeting_participants_chain env dp :
  get_meeting_participants env dp = first_success (platform_chain env dp).
Proof.
  unfold get_meeting_participants, platform_chain, tbind, consult, tret.
  simpl.
  destruct (truthy (get_google_calendar_participants env)); [done|].
  destruct (truthy (get_zoom_participants env)); [done|].
  destruct (truthy (get_teams_participants env)); [done|].
  unfold manual_string_answer. case_bool_decide as Hdp; simpl; [|done].
  set (typed := enumerate_mapping (strip <$> split "," dp)).
  case_bool_decide as Ht; [done|].
  destruct (decide (typed = ∅)) as [->|]; done.
Qed.

(** The test of the completion step on a mapping that may be [None]. *)
Lemma completion_test (o : option (gmap string string)) (n : nat) :
  negb (truthy o) || bool_decide (size (default ∅ o) < n)%nat
  = bool_decide (default ∅ o = ∅) || bool_decide (size (default ∅ o) < n)%nat.
Proof.
  f_equal. destruct (truthy o) eqn:Ht; simpl; symmetry.
  - apply bool_decide_eq_false_2. by apply truthy_true_default.
  - apply bool_decide_eq_true_2. by apply truthy_false_default.
Qed.

Lemma resolve_speaker_names_chain env dp diar merged :
  resolve_speaker_names env dp diar merged
  = manual_completion env diar merged (first_success (source_chain env dp)).
Proof.
  unfold resolve_speaker_names, source_chain.
  fold (platform_chain env dp).
  rewrite get_meeting_participants_chain.
  generalize (platform_chain env dp). intros chain.
  unfold manual_completion, tbind, consult, tret.
  destruct (use_bot_data env); simpl.
  - destruct (truthy (check_bot_capture_data env)) eqn:Hbot; simpl.
    + rewrite Hbot. simpl.
      destruct (truthy_true_default _ Hbot) as [Hne Hsome].
      rewrite (bool_decide_eq_false_2 (_ = ∅)) by done. simpl.
      case_bool_decide; simpl; [by case_bool_decide|]. by rewrite <- Hsome.
    + destruct (first_success chain) as [found asked].
      rewrite (completion_test (Some found)). simpl.
      destruct (_ || _); simpl; rewrite ?app_nil_r; [by case_bool_decide|done].
  - rewrite (bool_decide_eq_false_2 (∅ ≠ ∅)) by (by intros []). simpl.
    destruct (first_success chain) as [found asked].
    rewrite (completion_test (Some found)). simpl.
    destruct (_ || _); simpl; rewrite ?app_nil_r; [by case_bool_decide|done].
Qed.

(** In the list of sources asked by a chain, every source but the last
    answered nothing. *)
Lemma first_success_asked chain :
  (first_success chain).2 = (fst <$> take (length (first_success chain).2) chain) /\
  forall i, (S i < length (first_success chain).2)%nat ->
    exists src answer, chain !! i = Some (src, answer) /\ truthy answer = false.
Proof.
  induction chain as [|[src answer] chain [IHasked IHnothing]]; simpl.
  - split; [done|]. intros i Hi. lia.
  - destruct (truthy answer) eqn:Hans; simpl.
    + split; [done|]. intros i Hi. lia.
    + destruct (first_success chain) as [m asked]. simpl in *. split.
      * by rewrite IHasked at 1.
      * intros [|i] Hi; [by exists src, answer|].
        apply IHnothing. lia.
Qed.

(** C4 (amended). The lookups of the resolver (bot capture when enabled,
    calendar, Zoom, Teams, manual participant string) form a chain in which
    the first non-empty answer wins and a source is asked only if every
    source before it answered nothing; the manual form then replaces the
    mapping found when it is empty or has fewer entries than the
    diarization has speakers.  In particular, with the capture enabled, a
    non-empty capture mapping that has at least as many entries as there are
    diarized speakers is the final mapping, whatever the calendar answers. *)
Theorem resolver_priority_chain (env : NameSources)
    (default_participants : string)
    (diarization_data : list DiarizationSegment)
    (merged_transcript : list MergedSegment) :
  let chain := source_chain env default_participants in
  let unique_speakers :=
    size (list_to_set (d_speaker <$> diarization_data) : gset string) in
  resolve_speaker_names env default_participants diarization_data merged_transcript
    = manual_completion env diarization_data merged_transcript (first_success chain) /\
  (first_success chain).2
    = (fst <$> take (length (first_success chain).2) chain) /\
  (forall i, (S i < length (first_success chain).2)%nat ->
     exists src answer, chain !! i = Some (src, answer) /\ truthy answer = false) /\
  (forall capture,
     use_bot_data env = true ->
     check_bot_capture_data env = Some capture ->
     capture <> ∅ ->
     (unique_speakers <= size capture)%nat ->
     resolve_speaker_names env default_participants diarization_data
       merged_transcript
     = (Some capture, [BotCapture])).
Proof.
  intros chain unique_speakers.
  split; [apply resolve_speaker_names_chain|].
  split; [apply first_success_asked|]. split; [apply first_success_asked|].
  intros capture Hbot Hcapture Hne Hsize.
  rewrite resolve_speaker_names_chain. unfold source_chain.
  rewrite Hbot, Hcapture. simpl.
  rewrite (bool_decide_eq_true_2 (capture ≠ ∅)) by done.
  unfold manual_completion.
  rewrite (bool_decide_eq_false_2 (capture = ∅)) by done.
  rewrite bool_decide_eq_false_2 by (fold unique_speakers; lia).
  reflexivity.
Qed.

Lemma resolver_priority_chain_witness :
  exists capture,
    use_bot_data two_captured = true /\
    check_bot_capture_data two_captured = Some capture /\
    capture <> ∅ /\
    truthy (get_google_calendar_participants two_captured) = true /\
    resolve_speaker_names two_captured "" two_voices two_turns
    = (Some capture, [BotCapture]).
Proof.
  exists (enumerate_mapping ["Alice"; "Bob"]).
  assert (Hne : enumerate_mapping ["Alice"; "Bob"] <> ∅).
  { apply (bool_decide_unpack _). vm_compute. exact I. }
  assert (Hsize : (size (list_to_set (d_speaker <$> two_voices) : gset string)
                   <= size (enumerate_mapping ["Alice"; "Bob"]))%nat).
  { apply (bool_decide_unpack _). vm_compute. exact I. }
  split; [reflexivity|]. split; [reflexivity|]. split; [exact Hne|].
  split; [vm_compute; reflexivity|].
  exact (proj2 (proj2 (proj2
           (resolver_priority_chain two_captured "" two_voices two_turns)))
           _ eq_refl eq_refl Hne Hsize).
Defined.

(** The capture names one participant and the calendar two attendees, both
    non-empty; two voices were diarized, so the form replaces the capture. *)
Lemma resolver_priority_counterexample :
  exists capture final,
    check_bot_capture_data one_captured = Some capture /\
    truthy (Some capture) = true /\
    truthy (get_google_calendar_participants one_captured) = true /\
    resolve_speaker_names one_captured "" two_voices two_turns
      = (Some final, [BotCapture; ManualUI]) /\
    capture !! "SPEAKER_0" = Some "Alice" /\
    final !! "SPEAKER_0" = Some "Xavier".
Proof.
  exists (enumerate_mapping ["Alice"]).
  exists (manual_mapping one_captured ["SPEAKER_0"; "SPEAKER_1"]).
  repeat split; vm_compute; reflexivity.
Qed.

(** * Further properties *)

(** ** Fusion: the labels it gives *)

(** X1. The overlap that [find_speaker_at_time] computes is never negative,
    is the same when the transcript range and the diarization segment
    change places, and is at most the length of either of them (length 0
    for a range that ends before it starts). *)
Theorem overlap_symmetric_bounded (s e : Q) (D : DiarizationSegment) :
  (0 <= overlap s e D)%Q /\
  (overlap s e D == overlap (d_start D) (d_end D) (as_segment s e))%Q /\
  (overlap s e D <= Qmax 0 (e - s))%Q /\
  (overlap s e D <= Qmax 0 (d_end D - d_start D))%Q.
Proof.
  unfold overlap, as_segment. simpl.
  repeat split; split_minmax; lra.
Qed.

Lemma find_speaker_label_cases (s e : Q) (diar : list DiarizationSegment) :
  (diar = [] /\ find_speaker_at_time s e diar = "SPEAKER_0") \/
  find_speaker_at_time s e diar ∈ (d_speaker <$> diar).
Proof.
  destruct diar as [|first rest]; [by left|]. right.
  destruct (find_speaker_first_argmax s e (first :: rest)) as (i & D & Hi & -> & _);
    [done|].
  apply list_elem_of_fmap. exists D. split; [done|].
  by eapply list_elem_of_lookup_2.
Qed.

(** X2. [find_speaker_at_time] invents no label: on an empty diarization
    it answers SPEAKER_0, and otherwise a label that some segment of the
    diarization carries. *)
Theorem find_speaker_known_label (s e : Q) (diar : list DiarizationSegment) :
  (diar = [] /\ find_speaker_at_time s e diar = "SPEAKER_0") \/
  find_speaker_at_time s e diar ∈ (d_speaker <$> diar).
Proof.
  destruct diar as [|first rest]; [by left|]. right.
  destruct (find_speaker_first_argmax s e (first :: rest))
    as (i & D & Hi & Hspeaker & _); [done|].
  rewrite Hspeaker. apply list_elem_of_fmap. exists D. split; [done|].
  by eapply list_elem_of_lookup_2.
Qed.

(** X3. With a non-empty diarization, every label of the merged
    transcript is a speaker of the diarization.  So the labels shown in the
    manual form ([unique_speaker_labels], read off the merged transcript)
    are never more than [unique_speakers] (counted on the diarization). *)
Theorem merged_labels_within_diarization
    (ts : list TranscriptSegment) (d : list DiarizationSegment)
    (Hne : d <> []) :
  (list_to_set (speaker <$> merge_transcript_with_diarization ts d) : gset string)
    ⊆ list_to_set (d_speaker <$> d) /\
  (length (elements (list_to_set
             (speaker <$> merge_transcript_with_diarization ts d) : gset string))
   <= size (list_to_set (d_speaker <$> d) : gset string))%nat.
Proof.
  assert (Hsub :
    (list_to_set (speaker <$> merge_transcript_with_diarization ts d) : gset string)
      ⊆ list_to_set (d_speaker <$> d)).
  { intros label. rewrite !elem_of_list_to_set, merge_transcript_is_map.
    intros (m & -> & (t & -> & _)%list_elem_of_fmap)%list_elem_of_fmap.
    simpl. destruct (find_speaker_label_cases (ts_start t) (ts_end t) d)
      as [[? _]|?]; done. }
  split; [exact Hsub|].
  change (length (elements ?X)) with (size X).
  by apply subseteq_size.
Qed.

(** ** Boundary refinement: what the pass leaves and keeps *)

Lemma settled_lookup (g : Q) (l : list MergedSegment) :
  settled g l <->
  forall i a b, l !! i = Some a -> l !! S i = Some b -> should_merge g a b = false.
Proof.
  induction l as [|x l IH].
  - split; [|done]. intros _ i a b Ha. done.
  - destruct l as [|y l].
    + split; [|done]. intros _ [|i] a b Ha Hb; done.
    + change (settled g (x :: y :: l))
        with (should_merge g x y = false /\ settled g (y :: l)).
      rewrite IH. split.
      * intros [Hxy Hrest] [|i] a b Ha Hb.
        -- simpl in *. by simplify_eq.
        -- by apply (Hrest i).
      * intros H. split; [by apply (H 0%nat)|].
        intros i a b Ha Hb. by apply (H (S i)).
Qed.

Lemma should_merge_false (g : Q) (a b : MergedSegment) :
  should_merge g a b = false <->
  speaker b <> speaker a \/ (g <= start_seconds b - end_seconds a)%Q.
Proof.
  unfold should_merge. rewrite andb_false_iff, bool_decide_eq_false, Qltb_ge.
  done.
Qed.

(** X4. In the list that [refine_speaker_boundaries] returns, any two
    neighbours have different speakers or are at least
    [min_segment_duration] apart: nothing is left to merge. *)
Theorem refine_neighbours_apart (X : list MergedSegment) (g : Q) :
  forall i a b,
    refine_speaker_boundaries X g !! i = Some a ->
    refine_speaker_boundaries X g !! S i = Some b ->
    speaker b <> speaker a \/ (g <= start_seconds b - end_seconds a)%Q.
Proof.
  intros i a b Ha Hb. apply should_merge_false.
  revert i a b Ha Hb. apply settled_lookup.
  rewrite refine_speaker_boundaries_spec.
  destruct X as [|first rest]; [done|]. apply refine_from_settled.
Qed.

(** X5. A list in which any two neighbours have different speakers or
    are at least [min_segment_duration] apart is returned unchanged. *)
Theorem refine_unchanged_when_apart (X : list MergedSegment) (g : Q)
    (Hapart : forall i a b, X !! i = Some a -> X !! S i = Some b ->
       speaker b <> speaker a \/ (g <= start_seconds b - end_seconds a)%Q) :
  refine_speaker_boundaries X g = X.
Proof.
  rewrite refine_speaker_boundaries_spec.
  destruct X as [|first rest]; [done|]. apply refine_from_fixed.
  apply settled_lookup. intros i a b Ha Hb.
  apply should_merge_false. by apply (Hapart i).
Qed.

Lemma merge_into_kept_fields (a b : MergedSegment) :
  kept_fields (merge_into a b) = kept_fields a.
Proof. reflexivity. Qed.

Lemma refine_from_sublist (g : Q) (rest : list MergedSegment)
    (current : MergedSegment) :
  sublist (kept_fields <$> refine_from g current rest)
          (kept_fields <$> current :: rest).
Proof.
  revert current.
  induction rest as [|x rest IH]; intros current; [done|].
  simpl refine_from. destruct (should_merge g current x).
  - specialize (IH (merge_into current x)).
    rewrite !fmap_cons in *. rewrite merge_into_kept_fields in IH.
    apply sublist_cons_r in IH as [IH|(k & Hk & IH)].
    + by do 2 apply sublist_cons.
    + rewrite Hk. apply sublist_skip. by apply sublist_cons.
  - rewrite !fmap_cons. apply sublist_skip. apply IH.
Qed.

Lemma refine_from_last (g : Q) (rest : list MergedSegment)
    (current : MergedSegment) :
  end_seconds <$> last (refine_from g current rest)
  = end_seconds <$> last (current :: rest).
Proof.
  revert current.
  induction rest as [|x rest IH]; intros current; [done|].
  simpl refine_from. destruct (should_merge g current x).
  - rewrite IH. destruct rest; done.
  - destruct (refine_from_head g rest x) as (h & t & E & _).
    specialize (IH x). rewrite E in *.
    rewrite !last_cons_cons. done.
Qed.

(** X6. [refine_speaker_boundaries] keeps the start of the first segment
    and the end of the last one, and the speaker, [start_seconds], [start]
    and confidence of the segments it returns are those of a subsequence of
    its argument: a returned segment is an input segment, extended to the
    right only. *)
Theorem refine_keeps_span (X : list MergedSegment) (g : Q) :
  start_seconds <$> head (refine_speaker_boundaries X g)
    = start_seconds <$> head X /\
  end_seconds <$> last (refine_speaker_boundaries X g)
    = end_seconds <$> last X /\
  sublist (kept_fields <$> refine_speaker_boundaries X g) (kept_fields <$> X).
Proof.
  rewrite refine_speaker_boundaries_spec.
  destruct X as [|first rest]; [done|]. unfold refine_spec.
  split; [|split].
  - destruct (refine_from_head g rest first) as (h & t & -> & _ & Hstart).
    simpl. by rewrite Hstart.
  - apply refine_from_last.
  - apply refine_from_sublist.
Qed.

(** ** Boundary refinement on the store: the references *)

Lemma merge_in_place_dom (σ σ' : Store) (l s : nat) :
  merge_in_place σ l s = Some σ' ->
  dom (dicts σ') = dom (dicts σ) /\ dom (lists σ') = dom (lists σ).
Proof.
  unfold merge_in_place. intros Hmerge.
  destruct (dicts σ !! l) as [dl|] eqn:Hdl; [|done].
  destruct (dicts σ !! s) as [ds|] eqn:Hds; [|done].
  simpl in Hmerge.
  destruct (lists σ !! o_words dl) as [wl|] eqn:Hwl; [|done].
  destruct (lists σ !! o_words ds) as [ws|] eqn:Hws; [|done].
  simpl in Hmerge. simplify_eq. simpl. rewrite !dom_insert_L.
  apply elem_of_dom_2 in Hdl, Hwl.
  split; apply set_eq; intros r; rewrite elem_of_union, elem_of_singleton;
    (split; [intros [->|?]; done | by right]).
Qed.

Lemma refine_store_loop_none (g : Q) (rest : list nat) :
  fold_left (refine_store_step g) rest None = None.
Proof. induction rest; [done|]. simpl. apply IHrest. Qed.

Lemma refine_store_loop_refs (g : Q) (rest : list nat) :
  forall front last_ref σ front' last' σ',
    fold_left (refine_store_step g) rest (Some (front, last_ref, σ))
      = Some (front', last', σ') ->
    sublist (front' ++ [last']) (front ++ last_ref :: rest) /\
    dom (dicts σ') = dom (dicts σ) /\ dom (lists σ') = dom (lists σ).
Proof.
  induction rest as [|s rest IH]; intros front last_ref σ front' last' σ' Hfold.
  - simpl in Hfold. by simplify_eq.
  - cbn [fold_left] in Hfold.
    destruct (refine_store_step g (Some (front, last_ref, σ)) s)
      as [[[front1 last1] σ1]|] eqn:Hstep;
      [|by rewrite refine_store_loop_none in Hfold].
    apply IH in Hfold as (Hsub & Hd & Hl).
    unfold refine_store_step in Hstep. simpl in Hstep.
    destruct (view σ last_ref) as [cur|]; [|done]. simpl in Hstep.
    destruct (view σ s) as [v|]; [|done]. simpl in Hstep.
    destruct (should_merge g cur v).
    + destruct (merge_in_place σ last_ref s) as [σ2|] eqn:Hmerge; [|done].
      simpl in Hstep. simplify_eq.
      apply merge_in_place_dom in Hmerge as [Hd2 Hl2].
      split; [|split; congruence].
      etrans; [exact Hsub|].
      apply sublist_app; [done|]. apply sublist_skip. by apply sublist_cons.
    + simplify_eq. split; [|done]. by rewrite <- app_assoc in Hsub.
Qed.

(** X8. Whenever the in-place pass returns, the list it returns holds
    references of its argument, in their order: it creates no dict.  And no
    dict and no word list is added to or removed from the store. *)
Theorem refine_store_returns_its_arguments (refs : list nat) (g : Q)
    (σ σ' : Store) (refs' : list nat)
    (Hrun : refine_speaker_boundaries_store refs g σ = Some (refs', σ')) :
  sublist refs' refs /\
  dom (dicts σ') = dom (dicts σ) /\ dom (lists σ') = dom (lists σ).
Proof.
  unfold refine_speaker_boundaries_store in Hrun.
  destruct refs as [|first rest]; [by simplify_eq|].
  destruct (fold_left _ rest _) as [[[front last_ref] σ1]|] eqn:Hfold; [|done].
  simpl in Hrun. simplify_eq.
  by apply (refine_store_loop_refs g rest [] first σ).
Qed.

Lemma refine_store_loop_head (g : Q) (rest : list nat) :
  forall front last_ref σ front' last' σ',
    fold_left (refine_store_step g) rest (Some (front, last_ref, σ))
      = Some (front', last', σ') ->
    head (front' ++ [last']) = head (front ++ [last_ref]).
Proof.
  induction rest as [|s rest IH]; intros front last_ref σ front' last' σ' Hfold.
  - simpl in Hfold. by simplify_eq.
  - cbn [fold_left] in Hfold.
    destruct (refine_store_step g (Some (front, last_ref, σ)) s)
      as [[[front1 last1] σ1]|] eqn:Hstep;
      [|by rewrite refine_store_loop_none in Hfold].
    apply IH in Hfold. rewrite Hfold.
    unfold refine_store_step in Hstep. simpl in Hstep.
    destruct (view σ last_ref) as [cur|]; [|done]. simpl in Hstep.
    destruct (view σ s) as [v|]; [|done]. simpl in Hstep.
    destruct (should_merge g cur v).
    + destruct (merge_in_place σ last_ref s) as [σ2|]; [|done].
      simpl in Hstep. by simplify_eq.
    + simplify_eq. by destruct front.
Qed.

(** X7. On a store in which the list holds different dicts with
    different word lists, the in-place pass returns; the dicts it returns
    read as the list computed on values, there is one reference per
    computed segment, and the first reference is that of the first
    argument dict (when there is one). *)
Theorem refine_in_place_agrees (σ : Store) (refs : list nat)
    (vs : list MergedSegment) (g : Q)
    (Hseparated : separated σ refs) (Hviews : views σ refs vs) :
  exists refs' σ',
    refine_speaker_boundaries_store refs g σ = Some (refs', σ') /\
    views σ' refs' (refine_speaker_boundaries vs g) /\
    length refs' = length (refine_speaker_boundaries vs g) /\
    head refs' = head refs.
Proof.
  destruct (refine_store_simulates σ refs vs g Hseparated Hviews)
    as (refs' & σ' & Hrun & Hout).
  exists refs', σ'. split; [exact Hrun|]. split; [exact Hout|].
  split; [by eapply Forall2_length|].
  unfold refine_speaker_boundaries_store in Hrun.
  destruct refs as [|first rest]; [by simplify_eq|].
  destruct (fold_left _ rest _) as [[[front last_ref] σ1]|] eqn:Hfold; [|done].
  simpl in Hrun. simplify_eq.
  by apply (refine_store_loop_head g rest [] first σ) in Hfold.
Qed.

(** ** The diarizers *)

Section DiarizerFacts.

Context {Feature : Type}.
Variable extract_features : AudioFile -> Z -> Z -> Feature.
Variable fit_predict : Z -> list Feature -> option (list Z).

Lemma extract_loop_filter (audio : AudioFile) (ranges : list (Z * Z))
    (segments : list FallbackSegment) (features : list Feature) :
  fold_left (extract_step extract_features audio) ranges (segments, features)
  = (segments ++ (range_segment <$> filter (fun r => long_enough audio r = true) ranges),
     features ++ ((fun r => extract_features audio (start_sample_of r.1)
                              (start_sample_of r.2))
                    <$> filter (fun r => long_enough audio r = true) ranges)).
Proof.
  revert segments features.
  induction ranges as [|[start_ms end_ms] ranges IH]; intros segments features.
  - simpl. by rewrite !app_nil_r.
  - cbn [fold_left]. rewrite filter_cons.
    change (extract_step extract_features audio (segments, features) (start_ms, end_ms))
      with (if long_enough audio (start_ms, end_ms)
            then (segments ++ [range_segment (start_ms, end_ms)],
                  features ++ [extract_features audio (start_sample_of start_ms)
                                 (start_sample_of end_ms)])
            else (segments, features)).
    destruct (long_enough audio (start_ms, end_ms)) eqn:Hlong.
    + rewrite decide_True by done. rewrite IH, !fmap_cons, <- !app_assoc. done.
    + rewrite decide_False by done. apply IH.
Qed.

Lemma surviving_intervals_filter (audio : AudioFile) :
  surviving_intervals extract_features audio
  = (range_segment <$> filter (fun r => long_enough audio r = true)
                         (nonsilent_ranges audio),
     (fun r => extract_features audio (start_sample_of r.1) (start_sample_of r.2))
       <$> filter (fun r => long_enough audio r = true) (nonsilent_ranges audio)).
Proof. unfold surviving_intervals. by rewrite extract_loop_filter. Qed.

(** The enumerate loop, from the index after [done]: the labels go to the
    next segments in order, and a label past the last segment raises. *)
Lemma assign_labels_from (labels : list Z) :
  forall done rest : list FallbackSegment,
    assign_labels (length done) labels (done ++ rest)
    = if decide (length labels <= length rest)%nat
      then Returned (done ++ zip_with labelled labels rest
                       ++ drop (length labels) rest)
      else Raised.
Proof.
  induction labels as [|label labels IH]; intros done rest.
  - cbn [assign_labels length]. case_decide; [|lia]. done.
  - cbn [assign_labels]. destruct rest as [|s rest].
    + rewrite app_nil_r, lookup_ge_None_2 by lia.
      rewrite decide_False by (simpl; lia). done.
    + rewrite list_lookup_middle by done.
      replace (alter (with_speaker ("SPEAKER_" +:+ str_int label)) (length done)
                 (done ++ s :: rest))
        with ((done ++ [labelled label s]) ++ rest).
      2:{ rewrite <- (Nat.add_0_r (length done)) at 1.
          rewrite alter_app_r. simpl. by rewrite <- app_assoc. }
      replace (S (length done)) with (length (done ++ [labelled label s]))
        by (rewrite length_app; simpl; lia).
      rewrite IH. simpl.
      destruct (decide (length labels <= length rest)%nat);
        [rewrite decide_True by lia | rewrite decide_False by lia]; [|done].
      by rewrite <- app_assoc.
Qed.

Lemma assign_labels_length (labels : list Z) (segments out : list FallbackSegment) :
  assign_labels 0 labels segments = Returned out -> length out = length segments.
Proof.
  pose proof (assign_labels_from labels [] segments) as Hfrom.
  simpl in Hfrom. rewrite Hfrom.
  case_decide as Hle; [|done]. intros [= <-].
  rewrite length_app, length_zip_with, length_drop. lia.
Qed.

(** The run of [diarize_fallback] once the imports are there and the file
    decodes, by the number of surviving intervals. *)
Lemma diarize_fallback_run (caps : Capabilities) (audio : AudioFile)
    (num_speakers : option Z) :
  pydub_available caps = true ->
  librosa_sklearn_available caps = true ->
  decodable audio = true ->
  diarize_fallback extract_features fit_predict caps audio num_speakers
  = match surviving_intervals extract_features audio with
    | ([], _) | (_, []) => (Returned [], [])
    | ([s], [_]) => (Returned [with_speaker "SPEAKER_0" s], [])
    | (segments, features) =>
        let k := cluster_count num_speakers (Z.of_nat (length segments)) in
        (match fit_predict k features with
         | Some labels => assign_labels 0 labels segments
         | None => Raised
         end, [(k, features)])
    end.
Proof.
  intros Hpydub Hlibrosa Hdecodable. unfold diarize_fallback.
  rewrite Hpydub, Hlibrosa, Hdecodable. simpl.
  pose proof (surviving_intervals_lengths extract_features audio) as Hlen.
  destruct (nonsilent_ranges audio) as [|r ranges] eqn:Hranges.
  - unfold surviving_intervals. by rewrite Hranges.
  - destruct (surviving_intervals extract_features audio) as [segments features].
    simpl in Hlen.
    destruct features as [|f [|f' features]], segments as [|s [|s' segments]];
      try done.
    assert (Hmany : (1 <? Z.of_nat (length (f :: f' :: features)))%Z = true)
      by (apply Z.ltb_lt; simpl length; lia).
    rewrite Hmany. cbv zeta. by destruct (fit_predict _ _).
Qed.

Lemma labelling_keeps_times (labels : list Z) (rest : list FallbackSegment) :
  time_range <$> (zip_with labelled labels rest ++ drop (length labels) rest)
  = time_range <$> rest.
Proof.
  revert rest. induction labels as [|label labels IH]; intros rest; [done|].
  destruct rest as [|s rest]; [done|]. simpl. f_equal. apply IH.
Qed.

Lemma assign_labels_times (labels : list Z) (segments out : list FallbackSegment) :
  assign_labels 0 labels segments = Returned out ->
  time_range <$> out = time_range <$> segments.
Proof.
  pose proof (assign_labels_from labels [] segments) as Hfrom.
  simpl in Hfrom. rewrite Hfrom.
  case_decide as Hle; [|done]. intros [= <-]. apply labelling_keeps_times.
Qed.


(** X11. With at least two surviving intervals, the fallback diarizer
    gives the i-th label of the clusterer to the i-th interval when the
    clusterer answers one label per interval, and raises (an index out of
    range) when it answers more labels than there are intervals. *)
Theorem fallback_labels_in_order (caps : Capabilities) (audio : AudioFile)
    (num_speakers : option Z) (labels : list Z)
    (Hpydub : pydub_available caps = true)
    (Hlibrosa : librosa_sklearn_available caps = true)
    (Hdecodable : decodable audio = true)
    (Hmany : (1 < length (surviving_intervals extract_features audio).1)%nat)
    (Hlabels :
       fit_predict
         (cluster_count num_speakers
            (Z.of_nat (length (surviving_intervals extract_features audio).1)))
         (surviving_intervals extract_features audio).2 = Some labels) :
  (length labels = length (surviving_intervals extract_features audio).1 ->
   (diarize_fallback extract_features fit_predict caps audio num_speakers).1
   = Returned (zip_with labelled labels
                 (surviving_intervals extract_features audio).1)) /\
  ((length (surviving_intervals extract_features audio).1 < length labels)%nat ->
   (diarize_fallback extract_features fit_predict caps audio num_speakers).1
   = Raised).
Proof.
  rewrite diarize_fallback_run by done.
  pose proof (surviving_intervals_lengths extract_features audio) as Hlen.
  destruct (surviving_intervals extract_features audio) as [segments features].
  simpl in *.
  destruct segments as [|s [|s' segments]], features as [|f [|f' features]];
    simpl in *; try lia.
  rewrite Hlabels. simpl.
  pose proof (assign_labels_from labels [] (s :: s' :: segments)) as Hfrom.
  simpl in Hfrom. rewrite Hfrom. split; intros Hn.
  - rewrite decide_True by lia. rewrite drop_ge by (simpl; lia).
    by rewrite app_nil_r.
  - by rewrite decide_False by lia.
Qed.


Lemma find_speaker_single (s e : Q) (D : DiarizationSegment) :
  find_speaker_at_time s e [D] = d_speaker D.
Proof.
  unfold find_speaker_at_time. simpl. unfold find_speaker_step.
  by destruct (Qltb _ _).
Qed.

Lemma single_speaker_0 (ts : list TranscriptSegment) (d : list DiarizationSegment) :
  d = [] \/ (exists D, d = [D] /\ d_speaker D = "SPEAKER_0") ->
  Forall (fun m => speaker m = "SPEAKER_0") (merge_transcript_with_diarization ts d).
Proof.
  intros Hd. rewrite merge_transcript_is_map. apply Forall_fmap, Forall_true.
  intros t. simpl. destruct Hd as [->|(D & -> & HD)]; [done|].
  by rewrite find_speaker_single.
Qed.

(** X13. When the fallback diarizer returns at most one segment (the
    last-resort segment of a missing import included), every dict it
    returns has its speaker, and fusion labels every transcript segment
    SPEAKER_0. *)
Theorem fallback_few_segments_one_speaker (caps : Capabilities)
    (audio : AudioFile) (num_speakers : option Z)
    (segments : list FallbackSegment) (calls : list (Z * list Feature))
    (ts : list TranscriptSegment)
    (Hrun : diarize_fallback extract_features fit_predict caps audio num_speakers
            = (Returned segments, calls))
    (Hfew : (length segments <= 1)%nat) :
  exists d, diarization_data_of segments = Some d /\
    Forall (fun m => speaker m = "SPEAKER_0")
      (merge_transcript_with_diarization ts d).
Proof.
  assert (Hshape : segments = [] \/
            exists s, segments = [with_speaker "SPEAKER_0" s]).
  { destruct (pydub_available caps) eqn:Hpydub.
    2:{ unfold diarize_fallback in Hrun. rewrite Hpydub in Hrun. simpl in Hrun.
        injection Hrun as <- _. right. by exists last_resort_segment. }
    destruct (librosa_sklearn_available caps) eqn:Hlibrosa.
    2:{ unfold diarize_fallback in Hrun. rewrite Hpydub, Hlibrosa in Hrun.
        simpl in Hrun. injection Hrun as <- _. right.
        by exists last_resort_segment. }
    destruct (decodable audio) eqn:Hdecodable.
    2:{ unfold diarize_fallback in Hrun.
        rewrite Hpydub, Hlibrosa, Hdecodable in Hrun. done. }
    rewrite diarize_fallback_run in Hrun by done.
    pose proof (surviving_intervals_lengths extract_features audio) as Hlen.
    destruct (surviving_intervals extract_features audio) as [survivors features].
    simpl in Hlen.
    destruct survivors as [|s [|s' survivors]],
             features as [|f [|f' features]];
      try done; simpl in Hrun.
    - injection Hrun as <- _. by left.
    - injection Hrun as <- _. right. by exists s.
    - destruct (fit_predict _ _) as [labels|]; [|done].
      injection Hrun as Hout%assign_labels_length _. simpl in Hout. lia. }
  destruct Hshape as [->|[s ->]].
  - exists []. split; [done|]. apply single_speaker_0. by left.
  - eexists. split; [reflexivity|]. apply single_speaker_0. right.
    eexists. split; [reflexivity|]. done.
Qed.

Lemma track_segments_map (tracks : list (Q * Q * string)) :
  fold_left (fun segments track => segments ++ [track_segment track]) tracks []
  = track_segment <$> tracks.
Proof.
  enough (H : forall acc,
    fold_left (fun segments track => segments ++ [track_segment track]) tracks acc
    = acc ++ (track_segment <$> tracks)) by apply H.
  induction tracks as [|t tracks IH]; intros acc; simpl.
  - by rewrite app_nil_r.
  - rewrite IH. by rewrite <- app_assoc.
Qed.

(** X9. [diarize_audio_file] answers with the fallback diarizer when
    [HF_TOKEN] is unset or empty, whatever the method asked for, and when
    the method is neither auto nor pyannote.  Its result is the fallback
    diarizer's, or, with a token and [pyannote.audio] at hand and the
    pipeline not raising, the tracks of the pipeline in order, each with
    the label prefixed by SPEAKER_ and its duration.  It returns whenever
    the fallback diarizer does. *)
Theorem diarize_audio_file_falls_back (caps : Capabilities) (backend : Backend)
    (audio : AudioFile) (num_speakers : option Z) (method : string) :
  let fallback :=
    diarize_fallback extract_features fit_predict caps audio num_speakers in
  let result :=
    diarize_audio_file extract_features fit_predict caps backend audio
      num_speakers method in
  (env_set (HF_TOKEN backend) = false -> result = fallback) /\
  (method <> "auto" -> method <> "pyannote" -> result = fallback) /\
  (result = fallback \/
   exists tracks,
     env_set (HF_TOKEN backend) = true /\
     PYANNOTE_AVAILABLE backend = true /\
     run_pipeline backend audio num_speakers = Some tracks /\
     result = (Returned (track_segment <$> tracks), [])) /\
  (forall segments calls, fallback = (Returned segments, calls) ->
     exists segments' calls', result = (Returned segments', calls')).
Proof.
  intros fallback result.
  assert (Hcases : result = fallback \/
    exists tracks,
      env_set (HF_TOKEN backend) = true /\
      PYANNOTE_AVAILABLE backend = true /\
      run_pipeline backend audio num_speakers = Some tracks /\
      result = (Returned (track_segment <$> tracks), [])).
  { unfold result, diarize_audio_file, diarize_with_pyannote.
    destruct (env_set (HF_TOKEN backend)) eqn:Htoken,
             (PYANNOTE_AVAILABLE backend) eqn:Havailable; simpl;
      repeat case_bool_decide; simplify_eq; try (by left);
      destruct (run_pipeline backend audio num_speakers) as [tracks|] eqn:Hrun;
      try (by left);
      right; exists tracks; by rewrite track_segments_map. }
  split; [|split; [|split]].
  - intros Htoken. destruct Hcases as [?|(? & ? & _)]; [done|congruence].
  - intros Hauto Hpyannote. unfold result, diarize_audio_file.
    rewrite (bool_decide_eq_false_2 (method = "auto")) by done.
    by rewrite (bool_decide_eq_false_2 (method = "pyannote")) by done.
  - exact Hcases.
  - intros segments calls Hfallback.
    destruct Hcases as [->|(tracks & _ & _ & _ & ->)]; eauto.
Qed.

(** ** The diarizers *)

End DiarizerFacts.

(** ** Timestamps read back *)

Lemma digit_value_digit (d : Z) : (0 <= d <= 9)%Z -> digit_value (digit d) = d.
Proof.
  intros Hd.
  assert (Hall : forallb (fun n => (digit_value (digit (Z.of_nat n)) =? Z.of_nat n)%Z)
                   (seq 0 10) = true) by reflexivity.
  rewrite forallb_forall in Hall. specialize (Hall (Z.to_nat d)).
  rewrite Z2Nat.id in Hall by lia. apply Z.eqb_eq, Hall, in_seq. lia.
Qed.

Lemma read_hh_mm_ss_mmm_written (t : Z) :
  (0 <= t < 360000000)%Z -> read_hh_mm_ss_mmm (hh_mm_ss_mmm t) = Some t.
Proof.
  intros Ht. rewrite hh_mm_ss_mmm_chars. unfold read_hh_mm_ss_mmm.
  rewrite !digit_value_digit by (Z.div_mod_to_equations; lia).
  f_equal. Z.div_mod_to_equations. lia.
Qed.

Lemma format_timestamp_ms_written (x : Q) :
  (0 <= x)%Q -> (x < 360000)%Q ->
  format_timestamp_ms x = hh_mm_ss_mmm (Qfloor (x * 1000)).
Proof.
  intros Hx0 Hx1. rewrite (format_timestamp_ms_fields x Hx0).
  pose proof (Qfloor_mul_1000_bound x Hx0 Hx1) as Hms.
  unfold hh_mm_ss_mmm.
  rewrite !format_0d_two_digits by (Z.div_mod_to_equations; lia).
  rewrite format_0d_three_digits by (Z.div_mod_to_equations; lia).
  reflexivity.
Qed.


(** ** Labels and enumerated mappings *)

Lemma N_to_uint_nonnil (n : N) : N.to_uint n <> Decimal.Nil.
Proof. destruct n; [discriminate|]. apply Unsigned.to_uint_nonnil. Qed.

Lemma decimal_digits_inj (n n' : N) : decimal_digits n = decimal_digits n' -> n = n'.
Proof.
  unfold decimal_digits. intros H.
  apply (f_equal NilZero.uint_of_string) in H.
  rewrite !NilZero.usu in H by apply N_to_uint_nonnil.
  injection H as H. by apply DecimalN.Unsigned.to_uint_inj.
Qed.

Lemma speaker_label_inj (i j : nat) : speaker_label i = speaker_label j -> i = j.
Proof.
  unfold speaker_label. intros H%(inj (String.app "SPEAKER_")).
  apply decimal_digits_inj in H. lia.
Qed.

Lemma enumerate_mapping_snoc (names : list string) (name : string) :
  enumerate_mapping (names ++ [name])
  = <[speaker_label (length names) := name]> (enumerate_mapping names).
Proof.
  unfold enumerate_mapping. rewrite imap_app, fold_left_app. simpl.
  by rewrite Nat.add_0_r.
Qed.

Lemma enumerate_mapping_lookup (names : list string) (i : nat) :
  enumerate_mapping names !! speaker_label i = names !! i.
Proof.
  induction names as [|name names IH] using rev_ind; [done|].
  rewrite enumerate_mapping_snoc.
  destruct (decide (i = length names)) as [->|Hne].
  - rewrite lookup_insert_eq. by rewrite list_lookup_middle.
  - rewrite lookup_insert_ne by (intros ?%speaker_label_inj; done).
    rewrite IH. destruct (decide (i < length names)%nat).
    + by rewrite lookup_app_l.
    + rewrite !lookup_ge_None_2; [done|rewrite length_app; simpl; lia|lia].
Qed.

Lemma enumerate_mapping_keys (names : list string) (key name : string) :
  enumerate_mapping names !! key = Some name ->
  exists i, key = speaker_label i /\ names !! i = Some name.
Proof.
  induction names as [|x names IH] using rev_ind; [done|].
  rewrite enumerate_mapping_snoc.
  destruct (decide (key = speaker_label (length names))) as [->|Hne].
  - rewrite lookup_insert_eq. intros [= <-].
    exists (length names). split; [done|]. by apply list_lookup_middle.
  - rewrite lookup_insert_ne by done. intros (i & -> & Hi)%IH.
    exists i. split; [done|]. rewrite lookup_app_l; [done|].
    by eapply lookup_lt_Some.
Qed.

Lemma enumerate_mapping_size (names : list string) :
  size (enumerate_mapping names) = length names.
Proof.
  induction names as [|x names IH] using rev_ind; [done|].
  rewrite enumerate_mapping_snoc, map_size_insert_None.
  - rewrite IH, length_app. simpl. lia.
  - rewrite enumerate_mapping_lookup. by apply lookup_ge_None_2.
Qed.

(** X15. The mapping built by the loop [for i, name in enumerate(names)]
    has one entry per name, the i-th name under the key SPEAKER_i and no
    other key; different positions give different keys. *)
Theorem enumerated_names_by_position (names : list string) :
  size (enumerate_mapping names) = length names /\
  (forall i, enumerate_mapping names !! speaker_label i = names !! i) /\
  (forall key name, enumerate_mapping names !! key = Some name ->
     exists i, key = speaker_label i /\ names !! i = Some name) /\
  (forall i j, speaker_label i = speaker_label j -> i = j).
Proof.
  split; [apply enumerate_mapping_size|].
  split; [apply enumerate_mapping_lookup|].
  split; [apply enumerate_mapping_keys | apply speaker_label_inj].
Qed.

(** ** The manual participant string *)

Lemma split_go_length (sep : ascii) (s cur : string) :
  length (split_go sep cur s) = S (count_char sep s).
Proof.
  revert cur. induction s as [|c s IH]; intros cur; [done|].
  simpl. destruct (Ascii.eqb c sep); simpl; by rewrite IH.
Qed.

(** X16. When the calendar, Zoom and Teams give no name and the manual
    participant string is not empty, [get_meeting_participants] returns one
    entry per comma-separated field of the string (one more than it has
    commas, empty fields included), the i-th field stripped under
    SPEAKER_i; the mapping is not empty. *)
Theorem manual_participants_by_comma (env : NameSources)
    (default_participants : string)
    (Hcalendar : truthy (get_google_calendar_participants env) = false)
    (Hzoom : truthy (get_zoom_participants env) = false)
    (Hteams : truthy (get_teams_participants env) = false)
    (Hgiven : default_participants <> "") :
  let mapping := (get_meeting_participants env default_participants).1 in
  size mapping = S (count_char "," default_participants) /\
  (forall i, mapping !! speaker_label i
             = strip <$> split "," default_participants !! i) /\
  mapping <> ∅.
Proof.
  intros mapping.
  assert (Hmapping : mapping
    = enumerate_mapping (strip <$> split "," default_participants)).
  { unfold mapping, get_meeting_participants, tbind, consult, tret. simpl.
    rewrite Hcalendar, Hzoom, Hteams. simpl.
    by rewrite bool_decide_eq_true_2. }
  assert (Hsize : size mapping = S (count_char "," default_participants)).
  { rewrite Hmapping, enumerate_mapping_size, length_fmap.
    apply split_go_length. }
  split; [exact Hsize|]. split.
  - intros i. rewrite Hmapping, enumerate_mapping_lookup.
    by rewrite list_lookup_fmap.
  - intros Hempty. rewrite Hempty, map_size_empty in Hsize. done.
Qed.

(** ** The table [speaker_mappings] *)

Lemma get_speaker_mapping_lookup (meeting_id speaker_label : string)
    (table : gmap (string * string) string) :
  get_speaker_mapping meeting_id table !! speaker_label
  = table !! (meeting_id, speaker_label).
Proof.
  unfold get_speaker_mapping. apply option_eq. intros name. split.
  - intros Hin%elem_of_list_to_map_2.
    apply list_elem_of_omap in Hin as ([[mid label] name'] & Hrow & Hsel).
    simpl in Hsel. case_decide; simplify_eq.
    by apply elem_of_map_to_list in Hrow.
  - intros Hrow. apply elem_of_list_to_map_1'.
    + intros name' Hin.
      apply list_elem_of_omap in Hin as ([[mid label] name''] & Hrow' & Hsel).
      simpl in Hsel. case_decide; simplify_eq.
      apply elem_of_map_to_list in Hrow'. congruence.
    + apply list_elem_of_omap. exists (meeting_id, speaker_label, name).
      split; [by apply elem_of_map_to_list|]. simpl. by rewrite decide_True.
Qed.

(** X17. [get_speaker_mapping] after [save_speaker_mapping] for the same
    meeting is the former mapping with the saved label set to the saved
    name; the mappings of other meetings are as before; and saving twice
    for one label leaves the second name only. *)
Theorem speaker_mapping_saved_then_read
    (meeting_id speaker_label real_name : string)
    (table : gmap (string * string) string) :
  get_speaker_mapping meeting_id
    (save_speaker_mapping meeting_id speaker_label real_name table)
  = <[speaker_label := real_name]> (get_speaker_mapping meeting_id table) /\
  (forall other, other <> meeting_id ->
     get_speaker_mapping other
       (save_speaker_mapping meeting_id speaker_label real_name table)
     = get_speaker_mapping other table) /\
  (forall first_name,
     get_speaker_mapping meeting_id
       (save_speaker_mapping meeting_id speaker_label real_name
          (save_speaker_mapping meeting_id speaker_label first_name table))
     = get_speaker_mapping meeting_id
         (save_speaker_mapping meeting_id speaker_label real_name table)).
Proof.
  unfold save_speaker_mapping. split; [|split].
  - apply map_eq. intros label. rewrite get_speaker_mapping_lookup.
    destruct (decide (label = speaker_label)) as [->|Hne].
    + by rewrite !lookup_insert_eq.
    + rewrite !lookup_insert_ne by congruence.
      by rewrite get_speaker_mapping_lookup.
  - intros other Hother. apply map_eq. intros label.
    rewrite !get_speaker_mapping_lookup.
    by rewrite lookup_insert_ne by congruence.
  - intros first_name. by rewrite insert_insert_eq.
Qed.

(** ** The manual form *)

Lemma manual_mapping_lookup (env : NameSources) (labels : list string)
    (label : string) :
  manual_mapping env labels !! label
  = if decide (label ∈ labels /\ text_input env label <> "")
    then Some (text_input env label) else None.
Proof.
  unfold manual_mapping.
  enough (H : forall acc : gmap string string,
    fold_left (fun mapping speaker_label =>
                 let real_name := text_input env speaker_label in
                 if bool_decide (real_name <> "")
                 then <[speaker_label := real_name]> mapping else mapping)
      labels acc !! label
    = if decide (label ∈ labels /\ text_input env label <> "")
      then Some (text_input env label) else acc !! label).
  { rewrite H. by case_decide. }
  induction labels as [|l labels IH]; intros acc.
  - cbn [fold_left]. case_decide as Hin; [|done].
    destruct Hin as [Hin%elem_of_nil _]. done.
  - cbn [fold_left]. rewrite IH. cbv zeta.
    destruct (decide (label ∈ labels /\ text_input env label <> ""))
      as [[Hin Hname]|Hnot].
    + rewrite decide_True; [done|]. split; [by right|done].
    + case_bool_decide as Hl.
      * destruct (decide (label = l)) as [->|Hne].
        -- rewrite lookup_insert_eq. rewrite decide_True; [done|].
           split; [by left|done].
        -- rewrite lookup_insert_ne by done. rewrite decide_False; [done|].
           intros [[?|?]%elem_of_cons ?]; [done|]. by apply Hnot.
      * rewrite decide_False; [done|].
        intros [[->|?]%elem_of_cons ?]; [done|]. by apply Hnot.
Qed.

Lemma first_success_asked_in_chain
    (chain : list (Source * option (gmap string string))) (src : Source) :
  src ∈ (first_success chain).2 -> src ∈ chain.*1.
Proof.
  induction chain as [|[src' answer] chain IH]; simpl; [done|].
  destruct (truthy answer); simpl.
  - intros ->%list_elem_of_singleton. by left.
  - destruct (first_success chain) as [m asked]. simpl in *.
    intros [->|Hin]%elem_of_cons; [by left|]. right. by apply IH.
Qed.

Lemma source_chain_no_form (env : NameSources) (default_participants : string) :
  ManualUI ∉ (first_success (source_chain env default_participants)).2.
Proof.
  intros Hin%first_success_asked_in_chain. unfold source_chain in Hin.
  destruct (use_bot_data env); simpl in Hin;
    repeat (apply elem_of_cons in Hin as [Hin|Hin]; [done|]);
    by apply elem_of_nil in Hin.
Qed.

(** A form that fills as many entries as there are labels fills them all. *)
Lemma manual_mapping_complete (env : NameSources) (labels : gset string) :
  size (manual_mapping env (elements labels)) = length (elements labels) ->
  forall label, label ∈ labels ->
    text_input env label <> "" /\
    manual_mapping env (elements labels) !! label = Some (text_input env label).
Proof.
  intros Hsize.
  assert (Hdom : dom (manual_mapping env (elements labels)) = labels).
  { apply set_subseteq_size_eq.
    - intros label [name Hname]%elem_of_dom.
      rewrite manual_mapping_lookup in Hname. case_decide as Hin; [|done].
      destruct Hin as [Hin _]. by apply elem_of_elements in Hin.
    - rewrite size_dom, Hsize. done. }
  intros label Hlabel. rewrite <- Hdom in Hlabel.
  apply elem_of_dom in Hlabel as [name Hname].
  rewrite manual_mapping_lookup in Hname |- *.
  case_decide as Hin; [|done]. by destruct Hin.
Qed.

(** X18. When step 4 of [process_meeting_file] goes through after showing
    the manual form, every segment of the merged transcript is renamed, to
    the non-empty name typed for its label, and nothing else of the segment
    changes. *)
Theorem manual_form_names_every_segment (env : NameSources)
    (default_participants : string)
    (diarization_data : list DiarizationSegment)
    (merged_transcript : list MergedSegment)
    (speaker_mapping : gmap string string) (asked : list Source)
    (Hresolved :
       resolve_speaker_names env default_participants diarization_data
         merged_transcript = (Some speaker_mapping, asked))
    (Hform : ManualUI ∈ asked) :
  Forall2 (renamed_from env) merged_transcript
    (apply_speaker_names speaker_mapping merged_transcript).
Proof.
  rewrite resolve_speaker_names_chain in Hresolved.
  pose proof (source_chain_no_form env default_participants) as Hchain.
  destruct (first_success (source_chain env default_participants))
    as [found asked0].
  unfold manual_completion in Hresolved. simpl in Hchain.
  destruct (_ || _); [|by simplify_eq].
  case_bool_decide as Hsize; [done|].
  injection Hresolved as <- _.
  pose proof (manual_mapping_complete env _ Hsize) as Hall.
  unfold apply_speaker_names. apply Forall2_fmap_r, Forall_Forall2_diag.
  apply Forall_forall. intros segment Hsegment.
  destruct (Hall (speaker segment)) as [Hname Hlookup].
  - apply elem_of_list_to_set, list_elem_of_fmap. eauto.
  - unfold compose. rewrite Hlookup. by repeat split.
Qed.

(** X19. When the manual form is shown, step 4 stops (without a mapping)
    exactly when the field of some label of the merged transcript is left
    empty. *)
Theorem manual_form_blank_stops (env : NameSources)
    (default_participants : string)
    (diarization_data : list DiarizationSegment)
    (merged_transcript : list MergedSegment)
    (Hform : ManualUI ∈
       (resolve_speaker_names env default_participants diarization_data
          merged_transcript).2) :
  (resolve_speaker_names env default_participants diarization_data
     merged_transcript).1 = None
  <-> exists segment, segment ∈ merged_transcript /\
        text_input env (speaker segment) = "".
Proof.
  rewrite resolve_speaker_names_chain in Hform |- *.
  pose proof (source_chain_no_form env default_participants) as Hchain.
  destruct (first_success (source_chain env default_participants))
    as [found asked0].
  unfold manual_completion in *. simpl in Hchain.
  destruct (_ || _); [|done]. simpl. clear Hform.
  set (labels := list_to_set (speaker <$> merged_transcript) : gset string).
  case_bool_decide as Hsize; split; try done.
  - intros _.
    destruct (decide (Exists (fun segment => text_input env (speaker segment) = "")
                        merged_transcript)) as [Hex|Hall].
    + apply Exists_exists in Hex. done.
    + exfalso. apply Hsize. apply not_Exists_Forall in Hall; [|apply _].
      rewrite <- size_dom.
      change (length (elements labels)) with (size labels). f_equal.
      apply set_eq. intros label. rewrite elem_of_dom, manual_mapping_lookup.
      unfold labels. rewrite elem_of_list_to_set. split.
      * intros [name Hname]. case_decide as Hin; [|done].
        destruct Hin as [Hin _]. apply elem_of_elements in Hin.
        by apply elem_of_list_to_set in Hin.
      * intros Hin. rewrite decide_True; [done|]. split.
        -- by apply elem_of_elements, elem_of_list_to_set.
        -- apply list_elem_of_fmap in Hin as (segment & -> & Hsegment).
           rewrite Forall_forall in Hall. by apply Hall.
  - intros (segment & Hsegment & Hblank).
    destruct (manual_mapping_complete env labels Hsize (speaker segment))
      as [Hname _]; [|done].
    apply elem_of_list_to_set, list_elem_of_fmap. eauto.
Qed.

(** ** Fusion followed by refinement *)

(** X20. [refine_speaker_boundaries] applied to the output of fusion
    returns at most one segment per transcript segment, whose texts joined
    by one space are the transcript texts joined by one space, and whose
    words are the transcript words in order. *)
Theorem fuse_then_refine_keeps_text (ts : list TranscriptSegment)
    (d : list DiarizationSegment) (g : Q) :
  let refined :=
    refine_speaker_boundaries (merge_transcript_with_diarization ts d) g in
  (length refined <= length ts)%nat /\
  join_texts (text <$> refined) = join_texts (ts_text <$> ts) /\
  concat (words <$> refined) = concat ((fun t => default [] (ts_words t)) <$> ts).
Proof.
  intros refined. unfold refined.
  rewrite refine_speaker_boundaries_spec, merge_transcript_is_map.
  destruct ts as [|t ts]; [done|]. simpl refine_spec.
  split; [|split].
  - etrans; [apply refine_from_length|]. by rewrite length_fmap.
  - rewrite refine_from_texts. rewrite <- fmap_cons, <- list_fmap_compose. done.
  - rewrite refine_from_words. rewrite <- fmap_cons, <- list_fmap_compose. done.
Qed.


(** ** Sources that answer with no name *)

Lemma first_success_cons_eq (src : Source)
    (answer : option (gmap string string))
    (chain chain' : list (Source * option (gmap string string))) :
  first_success chain = first_success chain' ->
  first_success ((src, answer) :: chain) = first_success ((src, answer) :: chain').
Proof. intros Heq. simpl. by rewrite Heq. Qed.

Lemma enumerate_forget_empty (names : option (list string)) (src : Source)
    (chain chain' : list (Source * option (gmap string string))) :
  first_success chain = first_success chain' ->
  first_success ((src, enumerate_mapping <$> forget_empty names) :: chain)
  = first_success ((src, enumerate_mapping <$> names) :: chain').
Proof.
  intros Heq. etrans; [|by apply first_success_cons_eq].
  by destruct names as [[|name names]|].
Qed.

(** X22. A participant source that answers with no name at all counts as
    one that does not answer: step 4 and [get_meeting_participants] give
    the same mapping, after asking the same sources. *)
Theorem empty_answer_is_no_answer (env : NameSources)
    (default_participants : string)
    (diarization_data : list DiarizationSegment)
    (merged_transcript : list MergedSegment) :
  resolve_speaker_names (without_empty_answers env) default_participants
    diarization_data merged_transcript
  = resolve_speaker_names env default_participants diarization_data
      merged_transcript /\
  (get_meeting_participants (without_empty_answers env) default_participants
   = get_meeting_participants env default_participants).
Proof.
  assert (Hcalendar : get_google_calendar_participants (without_empty_answers env)
                      = get_google_calendar_participants env).
  { unfold get_google_calendar_participants. simpl.
    by destruct (calendar_attendees env) as [[|a attendees]|]. }
  assert (Hplatforms :
    first_success (platform_chain (without_empty_answers env) default_participants)
    = first_success (platform_chain env default_participants)).
  { unfold platform_chain, get_zoom_participants, get_teams_participants.
    rewrite Hcalendar. apply first_success_cons_eq.
    apply enumerate_forget_empty, enumerate_forget_empty. done. }
  split.
  - rewrite !resolve_speaker_names_chain. f_equal.
    unfold source_chain, check_bot_capture_data.
    change (use_bot_data (without_empty_answers env)) with (use_bot_data env).
    destruct (use_bot_data env); [|exact Hplatforms].
    apply (enumerate_forget_empty (bot_capture_file env) BotCapture).
    exact Hplatforms.
  - by rewrite !get_meeting_participants_chain, Hplatforms.
Qed.

(** ** Labels of the diarizers and keys of the mappings *)

Lemma str_int_of_nat (i : nat) :
  "SPEAKER_" +:+ str_int (Z.of_nat i) = speaker_label i.
Proof.
  unfold str_int, speaker_label.
  destruct (Z.ltb_spec (Z.of_nat i) 0) as [Hneg|_]; [lia|].
  by rewrite <- nat_N_Z, N2Z.id.
Qed.

(** X23. The key SPEAKER_i of an enumerated mapping is the label that the
    fallback diarizer writes for cluster i, so the i-th name is found under
    it.  A track of the pyannote pipeline finds a name only when its label
    is a decimal numeral as [str] writes it, and then the name at that
    position. *)
Theorem enumerated_keys_are_cluster_labels (names : list string) :
  (forall (i : nat) (s : FallbackSegment),
     f_speaker (labelled (Z.of_nat i) s) = Some (speaker_label i) /\
     enumerate_mapping names !! ("SPEAKER_" +:+ str_int (Z.of_nat i)) = names !! i) /\
  (forall (track : Q * Q * string) (label name : string),
     f_speaker (track_segment track) = Some label ->
     enumerate_mapping names !! label = Some name ->
     exists i, track.2 = str_int (Z.of_nat i) /\ names !! i = Some name).
Proof.
  split.
  - intros i s. unfold labelled. simpl. rewrite str_int_of_nat.
    split; [done|]. apply enumerate_mapping_lookup.
  - intros [[turn_start turn_end] speaker] label name [= <-] Hname.
    apply enumerate_mapping_keys in Hname as (i & Hlabel & Hi).
    exists i. split; [|done]. rewrite <- str_int_of_nat in Hlabel.
    by apply (inj (String.app "SPEAKER_")) in Hlabel.
Qed.

(** ** Runs on concrete inputs *)

Lemma merged_labels_within_diarization_witness :
  two_voices <> [] /\
  (list_to_set (speaker <$> merge_transcript_with_diarization two_remarks two_voices)
     : gset string) ⊆ list_to_set (d_speaker <$> two_voices).
Proof.
  assert (Hne : two_voices <> []) by discriminate.
  split; [exact Hne|].
  exact (proj1 (merged_labels_within_diarization two_remarks two_voices Hne)).
Defined.

Lemma refine_neighbours_apart_witness :
  speaker (said "SPEAKER_1" 2 3 "hello") <> speaker (said "SPEAKER_0" 0 2 "good morning")
  \/ (1 # 2 <= start_seconds (said "SPEAKER_1" 2 3 "hello")
               - end_seconds (said "SPEAKER_0" 0 2 "good morning"))%Q.
Proof.
  apply (refine_neighbours_apart
           [ said "SPEAKER_0" 0 1 "good"; said "SPEAKER_0" (13 # 10) 2 "morning";
             said "SPEAKER_1" 2 3 "hello" ] (1 # 2) 0%nat);
    reflexivity.
Defined.

Lemma refine_unchanged_when_apart_witness :
  refine_speaker_boundaries two_turns (1 # 2) = two_turns.
Proof.
  apply (refine_unchanged_when_apart two_turns (1 # 2)).
  intros [|[|i]] a b Ha Hb; simpl in Ha, Hb; try discriminate.
  injection Ha as <-. injection Hb as <-. left. discriminate.
Defined.

Lemma refine_in_place_agrees_witness :
  exists refs' σ',
    refine_speaker_boundaries_store [0; 1]%nat (1 # 2) two_objects
      = Some (refs', σ') /\
    views σ' refs'
      (refine_speaker_boundaries
         [said "SPEAKER_0" 0 1 "good"; said "SPEAKER_0" (13 # 10) 2 "morning"]
         (1 # 2)).
Proof.
  assert (Hseparated : separated two_objects [0; 1]%nat).
  { intros [|[|i]] [|[|j]] r1 r2 Hij Hi Hj; simpl in Hi, Hj;
      try discriminate; try (exfalso; apply Hij; reflexivity);
      injection Hi as <-; injection Hj as <-;
      split; vm_compute; discriminate. }
  assert (Hviews : views two_objects [0; 1]%nat
            [said "SPEAKER_0" 0 1 "good"; said "SPEAKER_0" (13 # 10) 2 "morning"]).
  { constructor; [vm_compute; reflexivity|].
    constructor; [vm_compute; reflexivity|]. constructor. }
  destruct (refine_in_place_agrees two_objects [0; 1]%nat _ (1 # 2)
              Hseparated Hviews) as (refs' & σ' & Hrun & Hout & _).
  exists refs', σ'. split; [exact Hrun | exact Hout].
Defined.

Lemma refine_store_returns_its_arguments_witness :
  exists refs' σ',
    refine_speaker_boundaries_store [0; 1]%nat (1 # 2) two_objects
      = Some (refs', σ') /\
    sublist refs' [0; 1]%nat.
Proof.
  eexists _, _.
  assert (Hrun : refine_speaker_boundaries_store [0; 1]%nat (1 # 2) two_objects
                 = Some _) by (vm_compute; reflexivity).
  split; [exact Hrun|].
  exact (proj1 (refine_store_returns_its_arguments _ _ _ _ _ Hrun)).
Defined.

Lemma diarize_audio_file_falls_back_witness :
  diarize_audio_file (fun _ _ _ => tt) (fun _ _ => None) all_capabilities
    no_token one_second_audio None "pyannote"
  = diarize_fallback (fun _ _ _ => tt) (fun _ _ => None) all_capabilities
      one_second_audio None.
Proof.
  apply (proj1 (diarize_audio_file_falls_back (fun _ _ _ => tt) (fun _ _ => None)
                  all_capabilities no_token one_second_audio None "pyannote")).
  reflexivity.
Defined.


Lemma fallback_labels_in_order_witness :
  (diarize_fallback (fun _ _ _ => tt) (fun _ _ => Some [0; 1]%Z)
     all_capabilities speech_with_burst None).1
  = Returned (zip_with labelled [0; 1]%Z
                (surviving_intervals (fun _ _ _ => tt) speech_with_burst).1).
Proof.
  assert (Hmany : (1 < length (surviving_intervals (fun _ _ _ => tt)
                                 speech_with_burst).1)%nat)
    by (vm_compute; lia).
  apply (proj1 (fallback_labels_in_order (fun _ _ _ => tt)
                  (fun _ _ => Some [0; 1]%Z) all_capabilities speech_with_burst
                  None [0; 1]%Z eq_refl eq_refl eq_refl Hmany eq_refl)).
  reflexivity.
Defined.


Lemma fallback_few_segments_one_speaker_witness :
  exists segments d,
    diarize_fallback (fun _ _ _ => tt) (fun _ _ => None) all_capabilities
      one_second_audio None = (Returned segments, []) /\
    diarization_data_of segments = Some d /\
    Forall (fun m => speaker m = "SPEAKER_0")
      (merge_transcript_with_diarization two_remarks d).
Proof.
  assert (Hrun : diarize_fallback (fun _ _ _ => tt) (fun _ _ => None)
                   all_capabilities one_second_audio None
                 = (Returned [with_speaker "SPEAKER_0" (range_segment (0, 1000)%Z)],
                    [])) by reflexivity.
  assert (Hfew : (length [with_speaker "SPEAKER_0" (range_segment (0, 1000)%Z)]
                  <= 1)%nat) by (simpl; lia).
  destruct (fallback_few_segments_one_speaker _ _ _ _ _ _ _ two_remarks Hrun Hfew)
    as (d & Hd & Hall).
  exists [with_speaker "SPEAKER_0" (range_segment (0, 1000)%Z)], d.
  split; [exact Hrun|]. split; [exact Hd | exact Hall].
Defined.


Lemma manual_participants_by_comma_witness :
  size (get_meeting_participants nothing_known "Alice, Bob").1 = 2%nat /\
  (get_meeting_participants nothing_known "Alice, Bob").1 !! "SPEAKER_1"
  = Some "Bob".
Proof.
  assert (Hgiven : "Alice, Bob" <> "") by discriminate.
  pose proof (manual_participants_by_comma nothing_known "Alice, Bob"
                eq_refl eq_refl eq_refl Hgiven) as (Hsize & Hlookup & _).
  split; [exact Hsize | exact (Hlookup 1%nat)].
Defined.

Lemma manual_form_names_every_segment_witness :
  Forall2 (renamed_from one_captured) two_turns
    (apply_speaker_names
       (manual_mapping one_captured ["SPEAKER_0"; "SPEAKER_1"]) two_turns).
Proof.
  assert (Hresolved :
    resolve_speaker_names one_captured "" two_voices two_turns
    = (Some (manual_mapping one_captured ["SPEAKER_0"; "SPEAKER_1"]),
       [BotCapture; ManualUI])) by (vm_compute; reflexivity).
  assert (Hform : ManualUI ∈ [BotCapture; ManualUI]) by repeat constructor.
  exact (manual_form_names_every_segment one_captured "" two_voices two_turns
           _ _ Hresolved Hform).
Defined.

Lemma manual_form_blank_stops_witness :
  (resolve_speaker_names nothing_known "" two_voices two_turns).1 = None.
Proof.
  assert (Hasked : (resolve_speaker_names nothing_known "" two_voices two_turns).2
                   = [BotCapture; GoogleCalendar; ZoomAPI; TeamsAPI;
                      ManualString; ManualUI]) by (vm_compute; reflexivity).
  assert (Hform : ManualUI ∈
            (resolve_speaker_names nothing_known "" two_voices two_turns).2)
    by (rewrite Hasked; repeat constructor).
  apply (proj2 (manual_form_blank_stops nothing_known "" two_voices two_turns
                  Hform)).
  exists (said "SPEAKER_0" 0 5 "hello"). split; [|reflexivity].
  repeat constructor.
Defined.

